(** * Chill: playback orchestration and API handlers

    A shallow embedding of the browser script [public/script.js] (module
    [Client]) and of the search, playlist and speech handlers of the Express
    API (module [Server]), followed by the properties of the playback state
    machine and of the replies.

    Conventions of the embedding.
    - A JavaScript value that is a string or [undefined]/[null] is an
      [option string]; [truthy] is JavaScript truthiness on such a value and
      [to_str] is the conversion a template literal applies.
    - A JavaScript string is a Rocq [string], one character per code unit.
    - The script's global variables, the two audio elements and the DOM nodes
      it writes form the record [State]; every function of the script is a
      state transformer ([Cmd]).
    - An [await], a promise callback and a [setTimeout] split a function in
      two: the part that runs at once registers an entry in [pending], the
      continuation runs when the matching [Event] is handled.
    - [console.log]/[console.error] are not modelled. *)

From stdpp Require Import base list strings pretty.

Open Scope string_scope.

(** ** JavaScript values *)

Definition truthy (v : option string) : bool :=
  match v with
  | Some s => negb (bool_decide (s = ""))
  | None => false
  end.

(** [a || b] on string-or-undefined values. *)
Definition js_or (a b : option string) : option string :=
  if truthy a then a else b.

(** [`${v}`] *)
Definition to_str (v : option string) : string :=
  match v with
  | Some s => s
  | None => "undefined"
  end.

(** ** The browser script *)

Module Client.

(** *** Data *)

(** An entry of [data.videos] as the playlist endpoint sends it. *)
Record Video := mkVideo {
  v_id : option string;
  v_title : option string
}.

(** [currentPlaylist]: [{ title, videos, currentIndex }]. *)
Record Playlist := mkPlaylist {
  pl_title : option string;
  videos : list Video;
  currentIndex : nat
}.

(** [nextAudioInfo]: [{ audioUrl, title }], the staged track. *)
Record AudioInfo := mkAudioInfo {
  audioUrl : option string;
  title : option string
}.

(** What an audio element or [fetch] is pointed at. The query argument is
    kept as the script passes it to [encodeURIComponent]. *)
Inductive Url :=
| ApiPlay (id : option string)
| ApiPlaylist (id : option string)
| ApiTts (text : string)
| Stream (url : string).

Inductive ChannelId := Primary | Announcement.

(** An audio element: its [src] and whether the script's last command to it
    was [pause()] ([true]) or [play()] ([false]). *)
Record Channel := mkChannel {
  src : option Url;
  paused : bool
}.

Inductive Elem :=
| playerContainer | loadingIndicator | errorElement | nextButton
| playlistInfoElement.

(** The DOM nodes the script writes: the [hidden] class of five elements,
    the [disabled] flag of the next button and four text contents. *)
Record Dom := mkDom {
  playerHidden : bool;
  loadingHidden : bool;
  errorHidden : bool;
  nextHidden : bool;
  playlistInfoHidden : bool;
  nextDisabled : bool;
  loadingText : string;
  errorText : string;
  currentTrackText : option string;
  playlistInfoText : string
}.

(** Work the script has handed to the browser and that calls back later. *)
Inductive Pending :=
| PFetchPlay (videoId title : option string)
| PFetchPlaylist (playlistId : option string)
| PTimerNext
| PTtsPlay
| PAudioPlay.

(** Commands issued to the audio elements, the network and the timer, in
    the order the script issues them. *)
Inductive Action :=
| ActPause (c : ChannelId)
| ActSetSrc (c : ChannelId) (u : Url)
| ActRemoveSrc (c : ChannelId)
| ActPlay (c : ChannelId)
| ActFetch (u : Url)
| ActSetTimeout (ms : nat).

Record State := mkState {
  currentPlaylist : option Playlist;
  isTTSPlaying : bool;
  nextAudioInfo : option AudioInfo;
  audioPlayer : Channel;
  ttsPlayer : Channel;
  dom : Dom;
  pending : list Pending;
  log : list Action
}.

#[global] Instance Video_eq_dec : EqDecision Video.
Proof. solve_decision. Defined.
#[global] Instance Playlist_eq_dec : EqDecision Playlist.
Proof. solve_decision. Defined.
#[global] Instance Url_eq_dec : EqDecision Url.
Proof. solve_decision. Defined.
#[global] Instance ChannelId_eq_dec : EqDecision ChannelId.
Proof. solve_decision. Defined.
#[global] Instance Pending_eq_dec : EqDecision Pending.
Proof. solve_decision. Defined.
#[global] Instance Action_eq_dec : EqDecision Action.
Proof. solve_decision. Defined.

(** *** State transformers *)

Definition Cmd := State -> State.

Definition seq (a b : Cmd) : Cmd := fun st => b (a st).
Definition skip : Cmd := fun st => st.

Notation "a >> b" := (seq a b) (at level 90, right associativity).

Definition set_currentPlaylist (p : option Playlist) : Cmd := fun st =>
  mkState p (isTTSPlaying st) (nextAudioInfo st) (audioPlayer st)
          (ttsPlayer st) (dom st) (pending st) (log st).
Definition set_isTTSPlaying (b : bool) : Cmd := fun st =>
  mkState (currentPlaylist st) b (nextAudioInfo st) (audioPlayer st)
          (ttsPlayer st) (dom st) (pending st) (log st).
Definition set_nextAudioInfo (i : option AudioInfo) : Cmd := fun st =>
  mkState (currentPlaylist st) (isTTSPlaying st) i (audioPlayer st)
          (ttsPlayer st) (dom st) (pending st) (log st).
Definition set_audioPlayer (c : Channel) : Cmd := fun st =>
  mkState (currentPlaylist st) (isTTSPlaying st) (nextAudioInfo st) c
          (ttsPlayer st) (dom st) (pending st) (log st).
Definition set_ttsPlayer (c : Channel) : Cmd := fun st =>
  mkState (currentPlaylist st) (isTTSPlaying st) (nextAudioInfo st)
          (audioPlayer st) c (dom st) (pending st) (log st).
Definition set_dom (d : Dom) : Cmd := fun st =>
  mkState (currentPlaylist st) (isTTSPlaying st) (nextAudioInfo st)
          (audioPlayer st) (ttsPlayer st) d (pending st) (log st).
Definition set_pending (p : list Pending) : Cmd := fun st =>
  mkState (currentPlaylist st) (isTTSPlaying st) (nextAudioInfo st)
          (audioPlayer st) (ttsPlayer st) (dom st) p (log st).
Definition emit (a : Action) : Cmd := fun st =>
  mkState (currentPlaylist st) (isTTSPlaying st) (nextAudioInfo st)
          (audioPlayer st) (ttsPlayer st) (dom st) (pending st)
          (log st ++ [a]).

Definition await (p : Pending) : Cmd := fun st =>
  set_pending (pending st ++ [p]) st.

(** The audio elements. *)
Definition channel (c : ChannelId) (st : State) : Channel :=
  match c with
  | Primary => audioPlayer st
  | Announcement => ttsPlayer st
  end.

Definition set_channel (c : ChannelId) (ch : Channel) : Cmd :=
  match c with
  | Primary => set_audioPlayer ch
  | Announcement => set_ttsPlayer ch
  end.

(** [el.pause()] *)
Definition pause (c : ChannelId) : Cmd := fun st =>
  (set_channel c (mkChannel (src (channel c st)) true) >>
   emit (ActPause c)) st.

(** [el.src = u] *)
Definition set_src (c : ChannelId) (u : Url) : Cmd := fun st =>
  (set_channel c (mkChannel (Some u) (paused (channel c st))) >>
   emit (ActSetSrc c u)) st.

(** [el.removeAttribute('src')] *)
Definition remove_src (c : ChannelId) : Cmd := fun st =>
  (set_channel c (mkChannel None (paused (channel c st))) >>
   emit (ActRemoveSrc c)) st.

(** [el.play()], whose promise settles later. *)
Definition play (c : ChannelId) : Cmd := fun st =>
  (set_channel c (mkChannel (src (channel c st)) false) >>
   emit (ActPlay c) >>
   await (match c with Primary => PAudioPlay | Announcement => PTtsPlay end))
    st.

(** [fetch(u)], whose response arrives later. *)
Definition fetch (u : Url) (p : Pending) : Cmd :=
  emit (ActFetch u) >> await p.

(** The DOM. *)
Definition set_hidden (e : Elem) (b : bool) : Cmd := fun st =>
  let d := dom st in
  set_dom
    match e with
    | playerContainer =>
        mkDom b (loadingHidden d) (errorHidden d) (nextHidden d)
              (playlistInfoHidden d) (nextDisabled d) (loadingText d)
              (errorText d) (currentTrackText d) (playlistInfoText d)
    | loadingIndicator =>
        mkDom (playerHidden d) b (errorHidden d) (nextHidden d)
              (playlistInfoHidden d) (nextDisabled d) (loadingText d)
              (errorText d) (currentTrackText d) (playlistInfoText d)
    | errorElement =>
        mkDom (playerHidden d) (loadingHidden d) b (nextHidden d)
              (playlistInfoHidden d) (nextDisabled d) (loadingText d)
              (errorText d) (currentTrackText d) (playlistInfoText d)
    | nextButton =>
        mkDom (playerHidden d) (loadingHidden d) (errorHidden d) b
              (playlistInfoHidden d) (nextDisabled d) (loadingText d)
              (errorText d) (currentTrackText d) (playlistInfoText d)
    | playlistInfoElement =>
        mkDom (playerHidden d) (loadingHidden d) (errorHidden d)
              (nextHidden d) b (nextDisabled d) (loadingText d)
              (errorText d) (currentTrackText d) (playlistInfoText d)
    end st.

Definition set_nextDisabled (b : bool) : Cmd := fun st =>
  let d := dom st in
  set_dom (mkDom (playerHidden d) (loadingHidden d) (errorHidden d)
                 (nextHidden d) (playlistInfoHidden d) b (loadingText d)
                 (errorText d) (currentTrackText d) (playlistInfoText d)) st.
Definition set_loadingText (s : string) : Cmd := fun st =>
  let d := dom st in
  set_dom (mkDom (playerHidden d) (loadingHidden d) (errorHidden d)
                 (nextHidden d) (playlistInfoHidden d) (nextDisabled d) s
                 (errorText d) (currentTrackText d) (playlistInfoText d)) st.
Definition set_errorText (s : string) : Cmd := fun st =>
  let d := dom st in
  set_dom (mkDom (playerHidden d) (loadingHidden d) (errorHidden d)
                 (nextHidden d) (playlistInfoHidden d) (nextDisabled d)
                 (loadingText d) s (currentTrackText d)
                 (playlistInfoText d)) st.
Definition set_currentTrackText (s : option string) : Cmd := fun st =>
  let d := dom st in
  set_dom (mkDom (playerHidden d) (loadingHidden d) (errorHidden d)
                 (nextHidden d) (playlistInfoHidden d) (nextDisabled d)
                 (loadingText d) (errorText d) s (playlistInfoText d)) st.
Definition set_playlistInfoText (s : string) : Cmd := fun st =>
  let d := dom st in
  set_dom (mkDom (playerHidden d) (loadingHidden d) (errorHidden d)
                 (nextHidden d) (playlistInfoHidden d) (nextDisabled d)
                 (loadingText d) (errorText d) (currentTrackText d) s) st.

(** *** Utility functions of the script *)

Definition showElement (e : Elem) : Cmd := set_hidden e false.
Definition hideElement (e : Elem) : Cmd := set_hidden e true.
Definition enableNext : Cmd := set_nextDisabled false.
Definition disableNext : Cmd := set_nextDisabled true.

Definition showLoading (message : string) : Cmd :=
  hideElement errorElement >>
  set_loadingText message >>
  showElement loadingIndicator.

Definition hideLoading : Cmd := hideElement loadingIndicator.

Definition showError (message : string) : Cmd :=
  hideLoading >>
  set_errorText message >>
  showElement errorElement.

Definition hideError : Cmd := hideElement errorElement.

(** *** What the network returns *)

(** The outcome of [await fetch(...)] followed by [await response.json()]:
    either of them throws ([NetError], with the error's message), or a
    response arrives with its [ok] flag, its status and its parsed body
    ([None] when the body is JSON [null]). *)
Inductive Fetched (D : Type) :=
| NetError (message : string)
| Response (ok : bool) (status : nat) (data : option D).
Arguments NetError {D} message.
Arguments Response {D} ok status data.

(** Body of [/api/play]. *)
Record PlayData := mkPlayData {
  d_audioUrl : option string;
  d_title : option string;
  d_error : option string
}.

(** Body of [/api/playlist]. *)
Record PlaylistData := mkPlaylistData {
  pd_title : option string;
  pd_videos : option (list Video);
  pd_error : option string
}.

(** Message of the [TypeError] raised by reading a property of [null]. *)
Definition null_property_message (prop : string) : string :=
  "Cannot read properties of null (reading '" ++ prop ++ "')".

(** The [try] block up to the point where the body is known to be usable:
    [inl] carries the message of the error that reaches [catch]. *)
Definition checked {D : Type} (error_of : D -> option string)
    (fallback first_prop : string) (r : Fetched D) : string + D :=
  match r with
  | NetError m => inl m
  | Response false status data =>
      inl (to_str (js_or (data ≫= error_of)
                         (Some (fallback ++ " (Status: " ++ pretty status
                                         ++ ")"))))
  | Response true _ None => inl (null_property_message first_prop)
  | Response true _ (Some d) => inr d
  end.

(** *** Core application logic *)

(** [updatePlaylistUI] *)
Definition updatePlaylistUI : Cmd := fun st =>
  match currentPlaylist st with
  | Some pl =>
      (set_playlistInfoText
         ("Playlist: " ++ to_str (pl_title pl) ++ " ("
            ++ pretty (currentIndex pl + 1) ++ " / "
            ++ pretty (length (videos pl)) ++ ")") >>
       showElement playlistInfoElement) st
  | None => hideElement playlistInfoElement st
  end.

(** [playMainAudio] *)
Definition playMainAudio : Cmd := fun st =>
  match nextAudioInfo st with
  | None =>
      match currentPlaylist st with
      | None => hideElement playerContainer st
      | Some _ => st
      end
  | Some info =>
      (set_currentTrackText (title info) >>
       set_src Primary (Stream (to_str (audioUrl info))) >>
       play Primary >>
       set_nextAudioInfo None) st
  end.

(** [playTTS] *)
Definition playTTS (text : string) : Cmd := fun st =>
  if bool_decide (text = "") then
    match nextAudioInfo st with
    | Some _ => playMainAudio st
    | None => st
    end
  else
    (set_isTTSPlaying true >>
     pause Primary >>
     set_src Announcement (ApiTts text) >>
     play Announcement) st.

(** [fetchAndPrepareVideo], up to its first [await]. *)
Definition fetchAndPrepareVideo (videoId title : option string) : Cmd :=
  fetch (ApiPlay videoId) (PFetchPlay videoId title).

(** [fetchAndPrepareVideo], from the response on. *)
Definition fetchAndPrepareVideo_resume (title : option string)
    (r : Fetched PlayData) : Cmd :=
  match checked d_error "Failed to load track" "audioUrl" r with
  | inr data =>
      let info := mkAudioInfo (d_audioUrl data) (js_or (d_title data) title) in
      set_nextAudioInfo (Some info) >>
      (fun st =>
         match currentPlaylist st with
         | Some _ => updatePlaylistUI st
         | None =>
             (set_currentTrackText (Client.title info) >>
              showElement playerContainer) st
         end) >>
      playTTS ("Changing now to " ++ to_str (Client.title info)) >>
      hideLoading
  | inl message =>
      showError ("Failed to load track: " ++ message) >>
      set_nextAudioInfo None >>
      (fun st =>
         match currentPlaylist st with
         | None => hideElement playerContainer st
         | Some _ => st
         end) >>
      hideLoading
  end.

(** [fetchPlaylist], up to its first [await]. *)
Definition fetchPlaylist (playlistId : option string) : Cmd :=
  fetch (ApiPlaylist playlistId) (PFetchPlaylist playlistId).

(** The [catch] block of [fetchPlaylist]. *)
Definition fetchPlaylist_catch (message : string) : Cmd :=
  showError ("Failed to load playlist: " ++ message) >>
  set_currentPlaylist None >>
  hideElement playlistInfoElement >>
  hideElement nextButton >>
  disableNext.

(** [fetchPlaylist], from the response on. *)
Definition fetchPlaylist_resume (r : Fetched PlaylistData) : Cmd :=
  match checked pd_error "Failed to load playlist" "videos" r with
  | inr data =>
      match pd_videos data with
      | Some (firstVideo :: rest) =>
          set_currentPlaylist
            (Some (mkPlaylist (pd_title data) (firstVideo :: rest) 0)) >>
          updatePlaylistUI >>
          showElement nextButton >>
          enableNext >>
          fetchAndPrepareVideo (v_id firstVideo) (v_title firstVideo)
      | Some [] | None =>
          fetchPlaylist_catch "Playlist is empty or contains no valid videos."
      end
  | inl message => fetchPlaylist_catch message
  end.

(** A search result as [displayResults] stores it in the element's
    [dataset]. *)
Record Dataset := mkDataset {
  ds_id : option string;
  ds_title : option string;
  ds_type : option string
}.

(** [handleResultClick]; [item] is [event.target.closest('.result-item')]. *)
Definition handleResultClick (item : option Dataset) : Cmd :=
  match item with
  | Some ds =>
      if truthy (ds_id ds) then
        set_currentPlaylist None >>
        hideElement playlistInfoElement >>
        hideElement nextButton >>
        disableNext >>
        showLoading "Loading..." >>
        hideError >>
        set_currentTrackText (Some "Loading...") >>
        remove_src Primary >>
        (if bool_decide (ds_type ds = Some "playlist")
         then fetchPlaylist (ds_id ds)
         else fetchAndPrepareVideo (ds_id ds) (ds_title ds))
      else skip
  | None => skip
  end.

(** The cursor step inside [playNextTrackInPlaylist]:
    [currentIndex++; if (currentIndex >= videos.length) currentIndex = 0]. *)
Definition advance (pl : Playlist) : Playlist :=
  let i := S (currentIndex pl) in
  mkPlaylist (pl_title pl) (videos pl)
             (if bool_decide (length (videos pl) <= i) then 0 else i).

(** The [else] branch of [playNextTrackInPlaylist]. *)
Definition stopPlaylist : Cmd :=
  showError "Error in playlist. Cannot play next track." >>
  set_currentPlaylist None >>
  hideElement playlistInfoElement >>
  hideElement nextButton.

(** [playNextTrackInPlaylist] *)
Definition playNextTrackInPlaylist : Cmd := fun st =>
  match currentPlaylist st with
  | None => st
  | Some pl =>
      if bool_decide (length (videos pl) = 0) then st
      else
        let pl' := advance pl in
        (disableNext >>
         set_currentPlaylist (Some pl') >>
         match videos pl' !! currentIndex pl' with
         | Some nextVideo =>
             if truthy (v_id nextVideo) then
               showLoading "Loading next track..." >>
               fetchAndPrepareVideo (v_id nextVideo) (v_title nextVideo) >>
               updatePlaylistUI
             else stopPlaylist
         | None => stopPlaylist
         end >>
         enableNext) st
  end.

(** *** Event listeners *)

(** [e.target.error] of a media element. *)
Record MediaError := mkMediaError {
  code : nat;
  me_message : string
}.

Definition MEDIA_ERR_ABORTED := 1.
Definition MEDIA_ERR_NETWORK := 2.
Definition MEDIA_ERR_DECODE := 3.
Definition MEDIA_ERR_SRC_NOT_SUPPORTED := 4.

Definition audioErrorMsg (err : option MediaError) : string :=
  match err with
  | None => "An unknown playback error occurred."
  | Some e =>
      if bool_decide (code e = MEDIA_ERR_ABORTED) then "Playback aborted."
      else if bool_decide (code e = MEDIA_ERR_NETWORK)
      then "Network error caused playback failure."
      else if bool_decide (code e = MEDIA_ERR_DECODE)
      then "Audio decoding error."
      else if bool_decide (code e = MEDIA_ERR_SRC_NOT_SUPPORTED)
      then "Audio format not supported."
      else "Playback error: "
             ++ (if bool_decide (me_message e = "") then "Unknown code"
                 else me_message e)
  end.

(** [audioPlayer] ['ended'] *)
Definition onAudioEnded : Cmd := fun st =>
  match currentPlaylist st with
  | Some _ => playNextTrackInPlaylist st
  | None => set_currentTrackText (Some "Finished") st
  end.

(** [audioPlayer] ['error'] *)
Definition onAudioError (err : option MediaError) : Cmd :=
  showError (audioErrorMsg err ++ " Try another track.") >>
  (fun st =>
     match currentPlaylist st with
     | Some _ => (emit (ActSetTimeout 1500) >> await PTimerNext) st
     | None => hideElement playerContainer st
     end).

(** [ttsPlayer] ['ended'] *)
Definition onTtsEnded : Cmd :=
  set_isTTSPlaying false >> playMainAudio.

(** [ttsPlayer] ['error'] *)
Definition onTtsError : Cmd :=
  set_isTTSPlaying false >>
  showError "TTS announcement failed. Playing track directly." >>
  playMainAudio.

(** The [catch] callback of [ttsPlayer.play()] in [playTTS]. *)
Definition onTtsPlayRejected : Cmd :=
  set_isTTSPlaying false >> playMainAudio.

(** The [then] callback of [audioPlayer.play()] in [playMainAudio], followed
    by the [catch] chained on it: the callback reads
    [nextAudioInfo.title], and [nextAudioInfo] is [null] unless a track was
    staged since; the [TypeError] is then handled by [onAudioPlayRejected]. *)
Definition onAudioPlayRejected (name message : string) : Cmd :=
  (if bool_decide (name = "NotAllowedError") then
     showError
       "Playback blocked. Please press the play button on the player to start."
     >> showElement playerContainer
   else showError ("Playback error: " ++ message)) >>
  hideLoading.

Definition onAudioPlayResolved : Cmd := fun st =>
  match nextAudioInfo st with
  | Some _ =>
      (showElement playerContainer >> hideLoading >> hideError) st
  | None =>
      onAudioPlayRejected "TypeError" (null_property_message "title") st
  end.

(** Page load: the state the script leaves behind after registering its
    listeners. Text contents come from the page and start empty here. *)
Definition init : State :=
  (hideElement playerContainer >>
   hideElement loadingIndicator >>
   hideElement errorElement >>
   hideElement nextButton >>
   disableNext >>
   hideElement playlistInfoElement)
    (mkState None false None (mkChannel None true) (mkChannel None true)
             (mkDom false false false false false false "" "" (Some "") "")
             [] []).

(** *** The event loop *)

Inductive Event :=
| ResultClick (item : option Dataset)
| NextClick
| PlaylistResponse (playlistId : option string) (r : Fetched PlaylistData)
| PlayResponse (videoId title : option string) (r : Fetched PlayData)
| TimerNext
| TtsPlayResolved
| TtsPlayRejected
| TtsEnded
| TtsError
| AudioPlayResolved
| AudioPlayRejected (name message : string)
| AudioEnded
| AudioError (err : option MediaError).

(** Drop the first occurrence of a settled entry. *)
Fixpoint remove_first (p : Pending) (l : list Pending) : list Pending :=
  match l with
  | [] => []
  | q :: l' => if bool_decide (p = q) then l' else q :: remove_first p l'
  end.

Definition settle (p : Pending) : Cmd := fun st =>
  set_pending (remove_first p (pending st)) st.

(** One turn of the event loop. *)
Definition handle (ev : Event) : Cmd :=
  match ev with
  | ResultClick item => handleResultClick item
  | NextClick => playNextTrackInPlaylist
  | PlaylistResponse playlistId r =>
      settle (PFetchPlaylist playlistId) >> fetchPlaylist_resume r
  | PlayResponse videoId title r =>
      settle (PFetchPlay videoId title) >> fetchAndPrepareVideo_resume title r
  | TimerNext => settle PTimerNext >> playNextTrackInPlaylist
  | TtsPlayResolved => settle PTtsPlay
  | TtsPlayRejected => settle PTtsPlay >> onTtsPlayRejected
  | TtsEnded => onTtsEnded
  | TtsError => onTtsError
  | AudioPlayResolved => settle PAudioPlay >> onAudioPlayResolved
  | AudioPlayRejected name message =>
      settle PAudioPlay >> onAudioPlayRejected name message
  | AudioEnded => onAudioEnded
  | AudioError err => onAudioError err
  end.

(** When the browser can deliver an event: a callback needs its pending
    entry, a click on the next button needs the button enabled, a media
    event needs a source on its element. *)
Definition enabled (st : State) (ev : Event) : bool :=
  match ev with
  | ResultClick _ => true
  | NextClick => negb (nextDisabled (dom st))
  | PlaylistResponse playlistId _ =>
      bool_decide (PFetchPlaylist playlistId ∈ pending st)
  | PlayResponse videoId title _ =>
      bool_decide (PFetchPlay videoId title ∈ pending st)
  | TimerNext => bool_decide (PTimerNext ∈ pending st)
  | TtsPlayResolved | TtsPlayRejected => bool_decide (PTtsPlay ∈ pending st)
  | AudioPlayResolved | AudioPlayRejected _ _ =>
      bool_decide (PAudioPlay ∈ pending st)
  | TtsEnded | TtsError => bool_decide (src (ttsPlayer st) <> None)
  | AudioEnded | AudioError _ => bool_decide (src (audioPlayer st) <> None)
  end.

Definition step (st : State) (ev : Event) : option State :=
  if enabled st ev then Some (handle ev st) else None.

(** Handle a sequence of events, whatever the state. *)
Definition run (st : State) (evs : list Event) : State :=
  foldl (fun s ev => handle ev s) st evs.

(** Handle a sequence of events the browser can deliver in this order. *)
Fixpoint exec (st : State) (evs : list Event) : option State :=
  match evs with
  | [] => Some st
  | ev :: evs' =>
      match step st ev with
      | Some st' => exec st' evs'
      | None => None
      end
  end.

End Client.

(** ** The API handlers *)

Module Server.

(** What an external library call does: it throws an error with a message,
    or it returns. *)
Inductive Outcome (A : Type) :=
| Throws (message : string)
| Returns (a : A).
Arguments Throws {A} message.
Arguments Returns {A} a.

(** What a handler sends: [res.status(200)] with a payload, or
    [res.status(n).json({ error, details })]. *)
Inductive Reply (A : Type) :=
| Ok (payload : A)
| Fail (status : nat) (error : string) (details : option string).
Arguments Ok {A} payload.
Arguments Fail {A} status error details.

(** The double quote character, for messages that contain it. *)
Definition dq : string := String (Ascii.ascii_of_nat 34) EmptyString.

(** [s.includes(sub)] *)
Fixpoint includes (sub s : string) : bool :=
  String.prefix sub s
  || match s with
     | EmptyString => false
     | String _ s' => includes sub s'
     end.

(** A video as youtube-sr describes it. *)
Record RawVideo := mkRawVideo {
  rv_id : option string;
  rv_title : option string;
  rv_thumbnail_url : option string;
  rv_durationFormatted : option string
}.

(** An entry of the search response. *)
Record SearchItem := mkSearchItem {
  si_id : option string;
  si_title : option string;
  si_thumbnail : option string;
  si_duration : option string
}.

(** An entry of the playlist response. *)
Record PlaylistItem := mkPlaylistItem {
  pi_id : option string;
  pi_title : option string;
  pi_duration : option string
}.

Record RawPlaylist := mkRawPlaylist {
  rp_title : option string;
  rp_videos : option (list RawVideo)
}.

Record PlaylistBody := mkPlaylistBody {
  pb_title : option string;
  pb_videos : list PlaylistItem
}.

(** [GET /api/search]; [search] is [YouTube.search] with the handler's
    fixed options. *)
Definition api_search (search : string -> Outcome (list RawVideo))
    (q : option string) : Reply (list SearchItem) :=
  if negb (truthy q) then
    Fail 400 ("Search query " ++ dq ++ "q" ++ dq ++ " is required.") None
  else
    let searchQuery := to_str q ++ " chill relaxing music" in
    match search searchQuery with
    | Returns results =>
        let simplifiedResults :=
          filter (fun item => truthy (si_id item) && truthy (si_title item))
            (map (fun item =>
                    mkSearchItem (rv_id item) (rv_title item)
                                 (rv_thumbnail_url item)
                                 (rv_durationFormatted item))
                 results) in
        Ok simplifiedResults
    | Throws message =>
        Fail 500 "Failed to search YouTube." (Some message)
    end.

(** The character class [[a-zA-Z0-9_-]]. *)
Definition is_id_char (c : Ascii.ascii) : bool :=
  let n := Ascii.nat_of_ascii c in
  ((97 <=? n) && (n <=? 122) || (65 <=? n) && (n <=? 90)
   || (48 <=? n) && (n <=? 57) || (n =? 95) || (n =? 45))%nat.

(** [/^[a-zA-Z0-9_-]+$/.test(s)] *)
Definition is_playlist_id (s : string) : bool :=
  negb (bool_decide (s = ""))
  && forallb is_id_char (String.list_ascii_of_string s).

(** [GET /api/playlist]; [getPlaylist] is [YouTube.getPlaylist] with the
    handler's limit. *)
Definition api_playlist
    (getPlaylist : string -> Outcome (option RawPlaylist))
    (id : option string) : Reply PlaylistBody :=
  if negb (truthy id) || negb (is_playlist_id (to_str id)) then
    Fail 400 ("A valid YouTube playlist ID " ++ dq ++ "id" ++ dq
                ++ " is required.") None
  else
    match getPlaylist (to_str id) with
    | Returns (Some (mkRawPlaylist ptitle (Some (v :: vs)))) =>
        let videos :=
          filter (fun v => truthy (pi_id v) && truthy (pi_title v))
            (map (fun video =>
                    mkPlaylistItem (rv_id video) (rv_title video)
                                   (rv_durationFormatted video))
                 (v :: vs)) in
        Ok (mkPlaylistBody (js_or ptitle (Some "Playlist")) videos)
    | Returns _ => Fail 404 "Playlist not found or is empty." None
    | Throws message =>
        if includes "not found" message
           || includes "Invalid Playlist ID" message
        then Fail 404 "Playlist not found or invalid ID." None
        else Fail 500 "Failed to retrieve playlist information."
                  (Some message)
    end.

(** The audio response of [/api/tts]: the headers set and the stream piped
    into the response. *)
Record AudioReply (Stream : Type) := mkAudioReply {
  headers : list (string * string);
  piped : Stream
}.
Arguments mkAudioReply {Stream} headers piped.
Arguments headers {Stream} _.
Arguments piped {Stream} _.

(** [GET /api/tts]; [gtts text lang] is [new gtts(text, lang)] followed by
    [.stream()]. *)
Definition api_tts {Stream : Type} (gtts : string -> string -> Outcome Stream)
    (text : option string) : Reply (AudioReply Stream) :=
  if negb (truthy text) then
    Fail 400 ("Text query parameter " ++ dq ++ "text" ++ dq ++ " is required.")
         None
  else if bool_decide (200 < String.length (to_str text)) then
    Fail 400 "Text length exceeds maximum limit (200 characters)." None
  else
    match gtts (to_str text) "en" with
    | Returns stream =>
        Ok (mkAudioReply [("Content-Type", "audio/mpeg");
                          ("Content-Disposition", "inline");
                          ("Cache-Control", "no-cache")] stream)
    | Throws message => Fail 500 "Failed to generate TTS audio." (Some message)
    end.

End Server.

(** ** The play endpoint *)

Module PlayApi.

Import Server.

(** A JavaScript error as the handler inspects it. *)
Record JsError := mkJsError {
  e_message : string;
  e_statusCode : option nat
}.

(** A call that may throw such an error. *)
Inductive Result (A : Type) :=
| Raise (e : JsError)
| Return (a : A).
Arguments Raise {A} e.
Arguments Return {A} a.

(** A stream format as ytdl-core describes it. *)
Record Format := mkFormat {
  f_url : option string;
  f_audioBitrate : option nat;
  f_itag : option nat;
  f_mimeType : option string
}.

(** [info]: its [formats] and the two fields of [videoDetails] the handler
    reads. *)
Record VideoInfo := mkVideoInfo {
  formats : list Format;
  vd_title : option string;
  vd_lengthSeconds : option string
}.

(** Body of a 200 reply. *)
Record PlayBody := mkPlayBody {
  play_audioUrl : option string;
  play_title : option string;
  play_durationSeconds : Z
}.

(** The functions of ytdl-core the handler calls, with the arguments it
    fixes: [filterFormats (_, 'audioonly')] and
    [chooseFormat (_, { quality: 'highestaudio', filter: 'audioonly' })];
    and the builtin [parseInt (_, 10)], [None] standing for [NaN]. *)
Class Ytdl := {
  validateID : string -> bool;
  getInfo : string -> Result VideoInfo;
  filterFormats : list Format -> list Format;
  chooseFormat : list Format -> Result (option Format);
  parseInt : option string -> option Z
}.

(** [f.audioBitrate || 0] *)
Definition bitrate (f : Format) : nat :=
  match f_audioBitrate f with
  | Some n => n
  | None => 0
  end.

(** [l.sort((a, b) => (b.audioBitrate || 0) - (a.audioBitrate || 0))]:
    descending by bitrate, entries of equal bitrate in their original order
    (the sort is stable). *)
Fixpoint insert_by_bitrate (x : Format) (l : list Format) : list Format :=
  match l with
  | [] => [x]
  | y :: l' =>
      if bool_decide (bitrate y <= bitrate x) then x :: y :: l'
      else y :: insert_by_bitrate x l'
  end.

Fixpoint sort_by_bitrate (l : list Format) : list Format :=
  match l with
  | [] => []
  | x :: l' => insert_by_bitrate x (sort_by_bitrate l')
  end.

(** The [catch] block. *)
Definition play_catch (e : JsError) : Reply PlayBody :=
  if includes "private" (e_message e)
     || includes "unavailable" (e_message e)
     || bool_decide (e_statusCode e = Some 404)
  then Fail 404 "Video is private, unavailable, or not found." None
  else if includes "age-restricted" (e_message e)
          || bool_decide (e_statusCode e = Some 403)
  then Fail 403 "Video is age-restricted and cannot be played directly." None
  else if includes "consent" (e_message e)
  then Fail 403 "Video requires consent and cannot be played directly." None
  else Fail 500 "Failed to get video playback information."
            (Some (e_message e)).

(** [parseInt(lengthSeconds, 10) || 0] *)
Definition duration_of `{Ytdl} (lengthSeconds : option string) : Z :=
  match parseInt lengthSeconds with
  | Some n => n
  | None => 0%Z
  end.

(** [GET /api/play] *)
Definition api_play `{Ytdl} (id : option string) : Reply PlayBody :=
  if negb (truthy id) || negb (validateID (to_str id)) then
    Fail 400 ("A valid YouTube video ID " ++ dq ++ "id" ++ dq
                ++ " is required.") None
  else
    match getInfo (to_str id) with
    | Raise e => play_catch e
    | Return info =>
        let audioFormats := filterFormats (formats info) in
        match chooseFormat audioFormats with
        | Raise e => play_catch e
        | Return chosen =>
            let format :=
              match chosen with
              | Some f => Some f
              | None => head (sort_by_bitrate audioFormats)
              end in
            match format with
            | Some f =>
                if truthy (f_url f) then
                  Ok (mkPlayBody (f_url f) (vd_title info)
                                 (duration_of (vd_lengthSeconds info)))
                else
                  Fail 404
                    "No suitable audio-only format found for this video." None
            | None =>
                Fail 404
                  "No suitable audio-only format found for this video." None
            end
        end
    end.

End PlayApi.

(** ** The search box and the result list of the browser script *)

Module SearchPage.

Import Client.

(** An entry of the body of [/api/search]. *)
Record SearchResult := mkSearchResult {
  sr_id : option string;
  sr_title : option string;
  sr_thumbnail : option string;
  sr_duration : option string
}.

(** The parsed body: the array of results, or the object an error reply
    carries. *)
Inductive SearchData :=
| ResultArray (l : list SearchResult)
| ErrorObject (error : option string).

(** A [div.result-item]: its [dataset], its image and its two lines. *)
Record ResultItem := mkResultItem {
  ri_dataset : Dataset;
  ri_img_src : string;
  ri_img_alt : string;
  ri_title : option string;
  ri_duration : string
}.

(** [resultsContainer]: the markup last assigned to [innerHTML] and the
    children appended since. *)
Record Results := mkResults {
  res_html : string;
  res_items : list ResultItem
}.

(** The page: the player state, the search box and button, the result list
    and the queries whose response is awaited. *)
Record Page := mkPage {
  core : State;
  searchInput : string;
  searchDisabled : bool;
  results : Results;
  searches : list string
}.

Definition on_core (c : Cmd) (p : Page) : Page :=
  mkPage (c (core p)) (searchInput p) (searchDisabled p) (results p)
         (searches p).
Definition set_searchDisabled (b : bool) (p : Page) : Page :=
  mkPage (core p) (searchInput p) b (results p) (searches p).
Definition set_results (r : Results) (p : Page) : Page :=
  mkPage (core p) (searchInput p) (searchDisabled p) r (searches p).
Definition set_searches (l : list string) (p : Page) : Page :=
  mkPage (core p) (searchInput p) (searchDisabled p) (results p) l.

(** White space and line terminators among the code units below 256. *)
Definition is_space (c : Ascii.ascii) : bool :=
  let n := Ascii.nat_of_ascii c in
  ((9 <=? n) && (n <=? 13) || (n =? 32) || (n =? 160))%nat.

Fixpoint trim_start (s : string) : string :=
  match s with
  | EmptyString => EmptyString
  | String c s' => if is_space c then trim_start s' else s
  end.

Fixpoint trim_end (s : string) : string :=
  match s with
  | EmptyString => EmptyString
  | String c s' =>
      match trim_end s' with
      | EmptyString => if is_space c then EmptyString else String c EmptyString
      | rest => String c rest
      end
  end.

(** [s.trim()] *)
Definition trim (s : string) : string := trim_end (trim_start s).

(** Forget the first awaited query equal to [q]. *)
Fixpoint settle_query (q : string) (l : list string) : list string :=
  match l with
  | [] => []
  | q' :: l' => if bool_decide (q = q') then l' else q' :: settle_query q l'
  end.

(** The paragraph shown in place of results. *)
Definition notice (text : string) : string :=
  "<p style=" ++ Server.dq ++ "padding: 1rem; text-align: center;"
    ++ Server.dq ++ ">" ++ text ++ "</p>".

(** The element [displayResults] builds for one complete entry. *)
Definition result_item (item : SearchResult) : ResultItem :=
  mkResultItem
    (mkDataset (sr_id item) (sr_title item) (Some "video"))
    (to_str (js_or (sr_thumbnail item) (Some "")))
    ("Thumbnail for " ++ to_str (sr_title item))
    (sr_title item)
    (to_str (js_or (sr_duration item) (Some ""))).

(** [displayResults] on [null] or an array. *)
Definition displayResults (data : option (list SearchResult)) : Results :=
  match data with
  | None | Some [] => mkResults (notice "No results found.") []
  | Some l =>
      mkResults ""
        (map result_item
           (List.filter
              (fun item => truthy (sr_id item) && truthy (sr_title item)) l))
  end.

(** [performSearch], up to its first [await]. *)
Definition performSearch (p : Page) : Page :=
  let query := trim (searchInput p) in
  if bool_decide (query = "") then
    on_core (showError "Please enter a search term.") p
  else
    set_searches (searches p ++ [query])
      (set_results (mkResults "" [])
         (set_searchDisabled true
            (on_core (showLoading "Searching..." >> hideError) p))).

(** The [finally] block. *)
Definition performSearch_finally (p : Page) : Page :=
  set_searchDisabled false (on_core hideLoading p).

(** The [catch] block. *)
Definition performSearch_catch (message : string) (p : Page) : Page :=
  set_results (mkResults (notice "Search failed.") [])
    (on_core (showError ("Search failed: " ++ message)) p).

(** [performSearch], from the response to [query] on. A body that is an
    object and not an array makes [displayResults] fail on
    [results.forEach] after it has emptied the list; the [catch] block gets
    the engine's message for that. *)
Definition performSearch_resume (query : string) (r : Fetched SearchData)
    (p : Page) : Page :=
  let p := set_searches (settle_query query (searches p)) p in
  performSearch_finally
    match r with
    | NetError m => performSearch_catch m p
    | Response false status data =>
        performSearch_catch
          (to_str (js_or (match data with
                          | Some (ErrorObject error) => error
                          | _ => None
                          end)
                         (Some ("Search failed (Status: " ++ pretty status
                                  ++ ")"))))
          p
    | Response true _ None => set_results (displayResults None) p
    | Response true _ (Some (ResultArray l)) =>
        set_results (displayResults (Some l)) p
    | Response true _ (Some (ErrorObject _)) =>
        performSearch_catch "results.forEach is not a function"
          (set_results (mkResults "" []) p)
    end.

End SearchPage.

(** ** Vocabulary of the properties *)

Import Client.
Import Server.
Import PlayApi.
Import SearchPage.

(** A playlist state is well formed when its cursor points at one of its
    videos (so there is at least one). *)
Definition playlist_ok (pl : Playlist) : Prop :=
  videos pl <> [] /\ currentIndex pl < length (videos pl).

(** The state invariant: a playlist, when present, is well formed. *)
Definition Inv (st : State) : Prop :=
  forall pl, currentPlaylist st = Some pl -> playlist_ok pl.

(** Every video can be resolved: its id is truthy. *)
Definition all_ids (pl : Playlist) : Prop :=
  Forall (fun v => truthy (v_id v) = true) (videos pl).

(** The playlist with the cursor moved to [i]. *)
Definition at_index (pl : Playlist) (i : nat) : Playlist :=
  mkPlaylist (pl_title pl) (videos pl) i.

(** The track a successful response of the play endpoint stages: the
    resolved URL, and the resolved title unless it is missing or empty. *)
Definition staged_by (title : option string) (data : PlayData) : AudioInfo :=
  mkAudioInfo (d_audioUrl data) (js_or (d_title data) title).

(** The announcement requested for a staged track. *)
Definition announcement (info : AudioInfo) : Url :=
  ApiTts ("Changing now to " ++ to_str (title info)).

(** The stream the Primary channel is pointed at for a staged track. *)
Definition stream_of (info : AudioInfo) : Url :=
  Stream (to_str (audioUrl info)).

(** The message of the error that reaches the [catch] block of
    [fetchAndPrepareVideo], if any. *)
Definition resolve_error (r : Fetched PlayData) : option string :=
  match checked d_error "Failed to load track" "audioUrl" r with
  | inl message => Some message
  | inr _ => None
  end.



(** The commands one turn of the event loop can issue. The Primary channel
    is loaded and played only in the last case. *)
Definition emission (st : State) (ev : Event) (acts : list Action) : Prop :=
  acts = [] \/
  (exists u, acts = [ActFetch u]) \/
  (exists u, acts = [ActRemoveSrc Primary; ActFetch u]) \/
  acts = [ActSetTimeout 1500] \/
  (exists text,
     acts = [ActPause Primary; ActSetSrc Announcement (ApiTts text);
             ActPlay Announcement]) \/
  (exists info,
     nextAudioInfo st = Some info /\
     (ev = TtsEnded \/ ev = TtsError \/ ev = TtsPlayRejected) /\
     acts = [ActSetSrc Primary (stream_of info); ActPlay Primary]).


(** Messages and headers of the speech endpoint. *)
Definition text_required : string :=
  "Text query parameter " ++ dq ++ "text" ++ dq ++ " is required.".
Definition text_too_long : string :=
  "Text length exceeds maximum limit (200 characters).".

(** [s] occurs in [t]. *)
Definition substring_of (s t : string) : Prop :=
  exists pre post, t = pre ++ s ++ post.

(** The entry the search handler builds from a library result, and the one
    the playlist handler builds. *)
Definition simplified (raw : RawVideo) : SearchItem :=
  mkSearchItem (rv_id raw) (rv_title raw) (rv_thumbnail_url raw)
               (rv_durationFormatted raw).
Definition playlist_entry (raw : RawVideo) : PlaylistItem :=
  mkPlaylistItem (rv_id raw) (rv_title raw) (rv_durationFormatted raw).

(** A library result with an id and a title. *)
Definition complete (raw : RawVideo) : Prop :=
  truthy (rv_id raw) = true /\ truthy (rv_title raw) = true.

(** The same as a test. *)
Definition is_complete (raw : RawVideo) : bool :=
  truthy (rv_id raw) && truthy (rv_title raw).

(** [response.ok] *)
Definition status_ok (status : nat) : bool :=
  bool_decide (200 <= status <= 299).

(** What [fetch] and [response.json()] give the script for a reply of the
    playlist handler. *)
Definition playlist_response (r : Reply PlaylistBody) : Fetched PlaylistData :=
  match r with
  | Ok body =>
      Response (status_ok 200) 200
        (Some (mkPlaylistData (pb_title body)
                 (Some (map (fun v => mkVideo (pi_id v) (pi_title v))
                            (pb_videos body)))
                 None))
  | Fail status error _ =>
      Response (status_ok status) status
               (Some (mkPlaylistData None None (Some error)))
  end.

(** What [fetch] and [response.json()] give the script for a reply of the
    play handler. *)
Definition play_response (r : Reply PlayBody) : Fetched PlayData :=
  match r with
  | Ok body =>
      Response (status_ok 200) 200
        (Some (mkPlayData (play_audioUrl body) (play_title body) None))
  | Fail status error _ =>
      Response (status_ok status) status
               (Some (mkPlayData None None (Some error)))
  end.

(** What [fetch] and [response.json()] give the script for a reply of the
    search handler. *)
Definition search_response (r : Reply (list SearchItem)) : Fetched SearchData :=
  match r with
  | Ok items =>
      Response (status_ok 200) 200
        (Some (ResultArray
                 (map (fun i => mkSearchResult (si_id i) (si_title i)
                                               (si_thumbnail i) (si_duration i))
                      items)))
  | Fail status error _ =>
      Response (status_ok status) status (Some (ErrorObject (Some error)))
  end.

(** The messages of the failure replies. *)
Definition query_required : string :=
  "Search query " ++ dq ++ "q" ++ dq ++ " is required.".
Definition playlist_id_required : string :=
  "A valid YouTube playlist ID " ++ dq ++ "id" ++ dq ++ " is required.".
Definition video_id_required : string :=
  "A valid YouTube video ID " ++ dq ++ "id" ++ dq ++ " is required.".

(** The user interface agrees with the playlist: the next button and the
    playlist line are shown exactly when a playlist is active, and the line
    then gives the 1-based position and the length. *)
Definition playlist_shown (st : State) : Prop :=
  match currentPlaylist st with
  | Some pl =>
      nextHidden (dom st) = false /\
      playlistInfoHidden (dom st) = false /\
      playlistInfoText (dom st)
      = "Playlist: " ++ to_str (pl_title pl) ++ " ("
          ++ pretty (currentIndex pl + 1) ++ " / "
          ++ pretty (length (videos pl)) ++ ")"
  | None =>
      nextHidden (dom st) = true /\ playlistInfoHidden (dom st) = true
  end.

(** The loading indicator and the error banner are not both visible. *)
Definition banners_exclusive (st : State) : Prop :=
  loadingHidden (dom st) = true \/ errorHidden (dom st) = true.

(** No playlist is active, requested or shown. *)
Definition single_track_mode (st : State) : Prop :=
  currentPlaylist st = None /\
  nextHidden (dom st) = true /\
  forall id, PFetchPlaylist id ∉ pending st.

(** The clicks of a run all hit elements [displayResults] has built. *)
Definition rendered (item : option Dataset) : Prop :=
  match item with
  | Some ds => ds_type ds = Some "video"
  | None => True
  end.
Definition clicks_rendered (evs : list Event) : Prop :=
  Forall (fun ev => match ev with
                    | ResultClick item => rendered item
                    | _ => True
                    end) evs.

(** A string of white space only. *)
Definition blank (s : string) : Prop :=
  forallb is_space (String.list_ascii_of_string s) = true.

(** An entry of the search body with an id and a title. *)
Definition entry_complete (entry : SearchResult) : bool :=
  truthy (sr_id entry) && truthy (sr_title entry).

(** An entry of the search reply as the script receives it. *)
Definition received (i : SearchItem) : SearchResult :=
  mkSearchResult (si_id i) (si_title i) (si_thumbnail i) (si_duration i).

(** The events by which the Announcement channel reports that it is done:
    ['ended'], ['error'], or the rejection of [play()]. *)
Definition announcement_signal (ev : Event) : Prop :=
  ev = TtsEnded \/ ev = TtsError \/ ev = TtsPlayRejected.

(** While a track is staged, the Announcement element is on that track's
    announcement and was last told to play, the Primary element was last
    told to pause, and the script's flag says an announcement is playing. *)
Definition staged_is_announced (st : State) : Prop :=
  match nextAudioInfo st with
  | Some info =>
      ttsPlayer st = mkChannel (Some (announcement info)) false /\
      paused (audioPlayer st) = true /\
      isTTSPlaying st = true
  | None => True
  end.

(** ** Sample data *)

(** A playlist of two tracks with the cursor on the last one. *)
Definition two_tracks : Playlist :=
  mkPlaylist (Some "Chill")
             [mkVideo (Some "a") (Some "A"); mkVideo (Some "b") (Some "B")] 1.

(** Two single tracks and their resolutions. *)
Definition item_A : Dataset :=
  mkDataset (Some "idA") (Some "Song A") (Some "video").
Definition item_B : Dataset :=
  mkDataset (Some "idB") (Some "Song B") (Some "video").
Definition resolved_A : Fetched PlayData :=
  Response true 200 (Some (mkPlayData (Some "urlA") (Some "Title A") None)).
Definition resolved_B : Fetched PlayData :=
  Response true 200 (Some (mkPlayData (Some "urlB") (Some "Title B") None)).

(** A playlist of two tracks, as selected from the page and as the
    playlist endpoint returns it. *)
Definition item_P : Dataset :=
  mkDataset (Some "PL1") (Some "Chill") (Some "playlist").
Definition listed_P : Fetched PlaylistData :=
  Response true 200
    (Some (mkPlaylistData (Some "Chill")
             (Some [mkVideo (Some "a") (Some "A"); mkVideo (Some "b") (Some "B")])
             None)).
Definition unresolved : Fetched PlayData :=
  Response false 404
    (Some (mkPlayData None None
             (Some "Video is private, unavailable, or not found."))).

(** What the browser reports when a stream cannot be played. *)
Definition unsupported : option MediaError :=
  Some (mkMediaError MEDIA_ERR_SRC_NOT_SUPPORTED "").

(** A synthesizer. *)
Definition gtts_up (text lang : string) : Outcome string :=
  Returns ("mp3:" ++ lang ++ ":" ++ text).

(** A search and a playlist lookup that return one complete entry and one
    without a title. *)
Definition found (query : string) : Outcome (list RawVideo) :=
  Returns [mkRawVideo (Some "a") (Some "A") None (Some "3:05");
           mkRawVideo (Some "b") None None None].
Definition listed (id : string) : Outcome (option RawPlaylist) :=
  Returns (Some (mkRawPlaylist (Some "Chill")
                   (Some [mkRawVideo (Some "a") (Some "A") None (Some "3:05");
                          mkRawVideo (Some "b") (Some "") None None]))).

(** Four audio formats, the last one without a URL. *)
Definition sample_formats : list Format :=
  [mkFormat (Some "u48") (Some 48) (Some 249) (Some "audio/webm");
   mkFormat (Some "u160") (Some 160) (Some 251) (Some "audio/webm");
   mkFormat (Some "u128") (Some 128) (Some 140) (Some "audio/mp4");
   mkFormat None (Some 160) None None].

(** A library that knows one video and chooses no format itself, and one
    whose lookup fails with a status code and a message of another class. *)
Definition ytdl_found : Ytdl :=
  {| validateID := fun s => bool_decide (String.length s = 11);
     getInfo := fun _ =>
       Return (mkVideoInfo sample_formats (Some "Title A") (Some "185"));
     filterFormats := fun l => l;
     chooseFormat := fun _ => Return None;
     parseInt := fun _ => Some 185%Z |}.
Definition unavailable_403 : JsError :=
  mkJsError "Video unavailable" (Some 403).
Definition ytdl_failing : Ytdl :=
  {| validateID := fun s => bool_decide (String.length s = 11);
     getInfo := fun _ => Raise unavailable_403;
     filterFormats := fun l => l;
     chooseFormat := fun _ => Return None;
     parseInt := fun _ => None |}.

(** A state with a track staged and its announcement requested. *)
Definition staged_A : State :=
  run init [ResultClick (Some item_A);
            PlayResponse (Some "idA") (Some "Song A") resolved_A].

(** The page with a padded query typed in. *)
Definition page_lofi : Page :=
  mkPage init "  lofi beats " false (mkResults "" []) [].


(** A playlist whose first track has ended: the second is being loaded. *)
Definition second_track : State :=
  run init [ResultClick (Some item_P);
            PlaylistResponse (Some "PL1") listed_P;
            PlayResponse (Some "a") (Some "A") resolved_A;
            TtsEnded; AudioEnded].

(** ** Proof automation *)

(** Unfold a handler down to the record it builds. *)
Ltac unfold_cmd :=
  unfold onTtsEnded, onTtsError, onTtsPlayRejected, onAudioPlayResolved,
    onAudioPlayRejected, onAudioError, onAudioEnded,
    fetchAndPrepareVideo_resume, fetchAndPrepareVideo, fetchPlaylist,
    fetchPlaylist_catch, stopPlaylist, playTTS, playMainAudio,
    updatePlaylistUI, showError, showLoading, hideError, hideLoading,
    showElement, hideElement, enableNext, disableNext, fetch, play, pause,
    set_src, remove_src, settle, await, seq, skip in *.

Ltac frame :=
  intros; unfold_cmd; simpl; repeat case_match; simpl; congruence.

(** Refute membership in a list of commands that are all different from
    the one looked for. *)
Ltac absurd_elem H :=
  repeat (apply elem_of_cons in H; destruct H as [H|H]; [discriminate H|]);
  apply elem_of_nil in H; destruct H.

(** Unfold one turn of the event loop down to the record it builds and
    split on every test it makes. *)
Ltac unfold_handle :=
  unfold handle, handleResultClick, onAudioEnded, fetchPlaylist_resume,
    playNextTrackInPlaylist in *;
  unfold_cmd; simpl;
  repeat (case_match; simpl in *; try discriminate).

(** ** JavaScript truthiness *)

Lemma truthy_Some (v : option string) :
  truthy v = true -> exists s, v = Some s /\ s <> "".
Proof.
  destruct v as [s|]; simpl; [|discriminate].
  intros H. exists s. split; [reflexivity|].
  apply negb_true_iff, bool_decide_eq_false in H. exact H.
Qed.

Lemma truthy_spec (v : option string) :
  truthy v = true <-> exists s, v = Some s /\ s <> "".
Proof.
  split; [apply truthy_Some|].
  intros (s & -> & Hs). simpl.
  apply negb_true_iff, bool_decide_eq_false. exact Hs.
Qed.

(** ** Properties of the playlist cursor *)

Section Cursor.

Lemma advance_index (pl : Playlist) :
  currentIndex pl < length (videos pl) ->
  advance pl = at_index pl (S (currentIndex pl) mod length (videos pl)).
Proof.
  intros Hlt. unfold advance, at_index. f_equal.
  case_bool_decide as Hwrap.
  - assert (S (currentIndex pl) = length (videos pl)) as -> by lia.
    symmetry. apply Nat.Div0.mod_same.
  - symmetry. apply Nat.mod_small. lia.
Qed.

Lemma advance_videos (pl : Playlist) : videos (advance pl) = videos pl.
Proof. reflexivity. Qed.

Lemma advance_title (pl : Playlist) : pl_title (advance pl) = pl_title pl.
Proof. reflexivity. Qed.

Lemma advance_in_range (pl : Playlist) :
  videos pl <> [] -> currentIndex (advance pl) < length (videos pl).
Proof.
  intros Hne. unfold advance; simpl.
  assert (0 < length (videos pl)) by (destruct (videos pl); simpl; [done|lia]).
  case_bool_decide; lia.
Qed.

Lemma advance_ok (pl : Playlist) :
  videos pl <> [] -> playlist_ok (advance pl).
Proof.
  intros Hne. split; [exact Hne|]. rewrite advance_videos.
  by apply advance_in_range.
Qed.

Lemma advance_all_ids (pl : Playlist) : all_ids pl -> all_ids (advance pl).
Proof. unfold all_ids. by rewrite advance_videos. Qed.

Lemma iter_advance (k : nat) (pl : Playlist) :
  playlist_ok pl ->
  Nat.iter k advance pl
  = at_index pl ((currentIndex pl + k) mod length (videos pl)).
Proof.
  intros [Hne Hlt]. induction k as [|k IH]; simpl.
  - rewrite Nat.add_0_r, Nat.mod_small by exact Hlt. by destruct pl.
  - rewrite IH, advance_index; simpl.
    + unfold at_index; simpl. f_equal.
      replace (S ((currentIndex pl + k) mod length (videos pl)))
        with ((currentIndex pl + k) mod length (videos pl) + 1) by lia.
      rewrite Nat.Div0.add_mod_idemp_l. f_equal. lia.
    + apply Nat.mod_upper_bound. lia.
Qed.

(** What [playNextTrackInPlaylist] does to the playlist when the video
    under the advanced cursor has an id. *)
Lemma playNext_currentPlaylist (st : State) (pl : Playlist) :
  currentPlaylist st = Some pl ->
  playlist_ok pl ->
  all_ids pl ->
  currentPlaylist (playNextTrackInPlaylist st) = Some (advance pl).
Proof.
  intros Hpl [Hne Hlt] Hids. unfold playNextTrackInPlaylist. rewrite Hpl.
  case_bool_decide as Hlen; [destruct (videos pl); simpl in *; done|].
  pose proof (advance_in_range pl Hne) as Hin.
  destruct (lookup_lt_is_Some_2 (videos pl) _ Hin) as [v Hv].
  rewrite advance_videos at 1. rewrite Hv.
  assert (truthy (v_id v) = true) as ->.
  { eapply Forall_lookup_1 in Hids; [exact Hids|exact Hv]. }
  reflexivity.
Qed.

Lemma iter_playNext_currentPlaylist (k : nat) (st : State) (pl : Playlist) :
  currentPlaylist st = Some pl ->
  playlist_ok pl ->
  all_ids pl ->
  currentPlaylist (Nat.iter k playNextTrackInPlaylist st)
  = Some (Nat.iter k advance pl).
Proof.
  intros Hpl Hok Hids. induction k as [|k IH]; simpl; [exact Hpl|].
  apply playNext_currentPlaylist; [exact IH| |].
  - rewrite iter_advance by exact Hok. split; simpl; [apply Hok|].
    apply Nat.mod_upper_bound. destruct Hok as [_ ?]. lia.
  - clear IH. induction k; simpl; [exact Hids|by apply advance_all_ids].
Qed.

(** C7. The cursor step increments the index and wraps to 0 past the last
    index, leaving title and videos alone. For a non-empty playlist of
    length [n] whose cursor is in range, [k] steps put the cursor at
    [(index + k) mod n]: [n] steps bring it back to where it was, and fewer
    steps (other than none) do not. [playNextTrackInPlaylist] moves the
    cursor of the active playlist by exactly this step when its videos all
    have an id, so [n] calls bring the cursor back as well. *)
Theorem advance_wraparound (pl : Playlist) :
  videos pl <> [] ->
  currentIndex pl < length (videos pl) ->
  advance pl
  = at_index pl (if bool_decide (currentIndex pl = length (videos pl) - 1)
                 then 0 else currentIndex pl + 1) /\
  (forall k,
     Nat.iter k advance pl
     = at_index pl ((currentIndex pl + k) mod length (videos pl))) /\
  Nat.iter (length (videos pl)) advance pl = pl /\
  (forall k, 0 < k < length (videos pl) -> Nat.iter k advance pl <> pl) /\
  forall st, currentPlaylist st = Some pl -> all_ids pl ->
    currentPlaylist (playNextTrackInPlaylist st) = Some (advance pl) /\
    (forall k,
       currentPlaylist (Nat.iter k playNextTrackInPlaylist st)
       = Some (at_index pl ((currentIndex pl + k) mod length (videos pl))))
    /\
    currentPlaylist (Nat.iter (length (videos pl)) playNextTrackInPlaylist st)
    = Some pl.
Proof.
  intros Hne Hlt.
  assert (playlist_ok pl) as Hok by (split; assumption).
  assert ((currentIndex pl + length (videos pl)) mod length (videos pl)
          = currentIndex pl) as Hwrap.
  { replace (currentIndex pl + length (videos pl))
      with (currentIndex pl + 1 * length (videos pl)) by lia.
    by rewrite Nat.Div0.mod_add, Nat.mod_small. }
  assert (at_index pl (currentIndex pl) = pl) as Hsame by (by destruct pl).
  split; [|split; [|split; [|split]]].
  - unfold advance, at_index. f_equal.
    repeat case_bool_decide; lia.
  - intros k. by apply iter_advance.
  - by rewrite iter_advance, Hwrap.
  - intros k Hk Hback. rewrite iter_advance in Hback by exact Hok.
    apply (f_equal currentIndex) in Hback. simpl in Hback.
    destruct (decide (currentIndex pl + k < length (videos pl))) as [Hs|Hs].
    + rewrite Nat.mod_small in Hback by exact Hs. lia.
    + replace (currentIndex pl + k)
        with (currentIndex pl + k - length (videos pl)
              + 1 * length (videos pl)) in Hback by lia.
      rewrite Nat.Div0.mod_add, Nat.mod_small in Hback by lia. lia.
  - intros st Hpl Hids. split; [|split].
    + by apply playNext_currentPlaylist.
    + intros k.
      rewrite iter_playNext_currentPlaylist with (pl := pl) by done.
      by rewrite iter_advance.
    + rewrite iter_playNext_currentPlaylist with (pl := pl) by done.
      by rewrite iter_advance, Hwrap, Hsame.
Qed.

End Cursor.

(** ** Which handlers touch the playlist *)

Section PlaylistFrame.

Lemma settle_currentPlaylist p st :
  currentPlaylist (settle p st) = currentPlaylist st.
Proof. frame. Qed.

Lemma playMainAudio_currentPlaylist st :
  currentPlaylist (playMainAudio st) = currentPlaylist st.
Proof. frame. Qed.

Lemma playTTS_currentPlaylist text st :
  currentPlaylist (playTTS text st) = currentPlaylist st.
Proof. frame. Qed.

Lemma resume_currentPlaylist title r st :
  currentPlaylist (fetchAndPrepareVideo_resume title r st)
  = currentPlaylist st.
Proof. frame. Qed.

Lemma onAudioError_currentPlaylist err st :
  currentPlaylist (onAudioError err st) = currentPlaylist st.
Proof. frame. Qed.

Lemma onAudioPlayRejected_currentPlaylist name message st :
  currentPlaylist (onAudioPlayRejected name message st) = currentPlaylist st.
Proof. frame. Qed.

Lemma onAudioPlayResolved_currentPlaylist st :
  currentPlaylist (onAudioPlayResolved st) = currentPlaylist st.
Proof. frame. Qed.

Lemma onTts_currentPlaylist st :
  currentPlaylist (onTtsEnded st) = currentPlaylist st /\
  currentPlaylist (onTtsError st) = currentPlaylist st /\
  currentPlaylist (onTtsPlayRejected st) = currentPlaylist st.
Proof. repeat split; frame. Qed.

(** [playNextTrackInPlaylist] leaves no playlist, the same playlist (when it
    returns at once) or the advanced one. *)
Lemma playNext_cases st :
  currentPlaylist (playNextTrackInPlaylist st) = None \/
  currentPlaylist (playNextTrackInPlaylist st) = currentPlaylist st \/
  exists pl, currentPlaylist st = Some pl /\ videos pl <> [] /\
    currentPlaylist (playNextTrackInPlaylist st) = Some (advance pl).
Proof.
  unfold playNextTrackInPlaylist.
  destruct (currentPlaylist st) as [pl|] eqn:Hpl; [|by left].
  case_bool_decide as Hlen; [right; left; exact Hpl|].
  assert (videos pl <> []) as Hne by (destruct (videos pl); simpl in *; done).
  destruct (videos (advance pl) !! currentIndex (advance pl)) as [v|];
    [destruct (truthy (v_id v))|].
  - right; right. exists pl. by repeat split.
  - by left.
  - by left.
Qed.

(** What the response of the playlist endpoint does to the playlist. *)
Lemma fetchPlaylist_resume_cases r st :
  currentPlaylist (fetchPlaylist_resume r st) = None \/
  exists t v vs,
    currentPlaylist (fetchPlaylist_resume r st)
    = Some (mkPlaylist t (v :: vs) 0).
Proof.
  unfold fetchPlaylist_resume.
  destruct (checked _ _ _ r) as [m|data]; [by left|].
  destruct (pd_videos data) as [[|v vs]|]; [by left| |by left].
  right. by exists (pd_title data), v, vs.
Qed.

Lemma handleResultClick_cases item st :
  currentPlaylist (handleResultClick item st) = None \/
  handleResultClick item st = st.
Proof.
  unfold handleResultClick. destruct item as [ds|]; [|by right].
  destruct (truthy (ds_id ds)); [left|by right].
  unfold_cmd; simpl. by case_bool_decide.
Qed.

Lemma handle_preserves_Inv (st : State) (ev : Event) :
  Inv st -> Inv (handle ev st).
Proof.
  intros HI.
  assert (forall s, currentPlaylist s = currentPlaylist st -> Inv s) as Hsame.
  { intros s Hs pl Hpl. apply HI. congruence. }
  assert (forall s, currentPlaylist s = None -> Inv s) as Hnone.
  { intros s Hs pl Hpl. congruence. }
  assert (forall s, currentPlaylist s = currentPlaylist st ->
            Inv (playNextTrackInPlaylist s)) as Hnext.
  { intros s Hs.
    destruct (playNext_cases s) as [H|[H|(pl & Hpl & Hne & H)]].
    - by apply Hnone.
    - apply Hsame. congruence.
    - intros pl' Hpl'. rewrite H in Hpl'. injection Hpl' as <-.
      by apply advance_ok. }
  destruct ev; simpl; unfold seq.
  - destruct (handleResultClick_cases item st) as [H|H];
      [by apply Hnone|by rewrite H].
  - by apply Hnext.
  - destruct (fetchPlaylist_resume_cases r (settle (PFetchPlaylist playlistId) st))
      as [H|(t & v & vs & H)]; [by apply Hnone|].
    intros pl Hpl. rewrite H in Hpl. injection Hpl as <-.
    split; simpl; [done|lia].
  - apply Hsame. by rewrite resume_currentPlaylist, settle_currentPlaylist.
  - apply Hnext, settle_currentPlaylist.
  - apply Hsame, settle_currentPlaylist.
  - apply Hsame.
    rewrite (proj2 (proj2 (onTts_currentPlaylist _))).
    apply settle_currentPlaylist.
  - apply Hsame, onTts_currentPlaylist.
  - apply Hsame, onTts_currentPlaylist.
  - apply Hsame.
    by rewrite onAudioPlayResolved_currentPlaylist, settle_currentPlaylist.
  - apply Hsame.
    by rewrite onAudioPlayRejected_currentPlaylist, settle_currentPlaylist.
  - unfold onAudioEnded. destruct (currentPlaylist st) eqn:Hpl.
    + by apply Hnext.
    + by apply Hsame.
  - apply Hsame, onAudioError_currentPlaylist.
Qed.

End PlaylistFrame.

(** ** The playlist invariant *)

Section Invariant.

Lemma Inv_init : Inv init.
Proof. intros pl Hpl. discriminate Hpl. Qed.

Lemma run_preserves_Inv (evs : list Event) (st : State) :
  Inv st -> Inv (run st evs).
Proof.
  revert st. induction evs as [|ev evs IH]; intros st HI; simpl; [exact HI|].
  apply IH. by apply handle_preserves_Inv.
Qed.

Lemma exec_run (evs : list Event) (st st' : State) :
  exec st evs = Some st' -> st' = run st evs.
Proof.
  revert st. induction evs as [|ev evs IH]; intros st; simpl.
  - by intros [= <-].
  - unfold step. destruct (enabled st ev); [apply IH|discriminate].
Qed.

(** C8. A playlist, whenever present, is non-empty and its cursor is in
    range: this holds after page load and is kept by every event handler,
    hence in every state the script reaches. The response of the playlist
    endpoint builds the playlist at index 0 when it carries at least one
    video; an empty or absent list, a failed response and a network error
    leave no playlist and show an error. *)
Theorem playlist_invariant :
  Inv init /\
  (forall st ev, Inv st -> Inv (handle ev st)) /\
  (forall evs st, exec init evs = Some st -> Inv st) /\
  (forall st playlistId r,
     let st' := handle (PlaylistResponse playlistId r) st in
     match r with
     | Response true _ (Some data) =>
         match pd_videos data with
         | Some (v :: vs) =>
             currentPlaylist st'
             = Some (mkPlaylist (pd_title data) (v :: vs) 0)
         | _ =>
             currentPlaylist st' = None /\
             errorHidden (dom st') = false /\
             errorText (dom st')
             = "Failed to load playlist: Playlist is empty or contains no valid videos."
         end
     | _ => currentPlaylist st' = None /\ errorHidden (dom st') = false
     end).
Proof.
  split; [exact Inv_init|].
  split; [exact handle_preserves_Inv|].
  split.
  - intros evs st Hex. rewrite (exec_run _ _ _ Hex).
    apply run_preserves_Inv, Inv_init.
  - intros st playlistId r. simpl. unfold seq, fetchPlaylist_resume.
    destruct r as [m|[|] status [data|]]; simpl; try (by split).
    destruct (pd_videos data) as [[|v vs]|]; simpl; by repeat split.
Qed.

(** The invariant at work on [two_tracks]: the next-track timer wraps the
    cursor to 0. *)
Lemma playlist_invariant_witness :
  Inv (set_currentPlaylist (Some two_tracks) init) /\
  Inv (handle TimerNext (set_currentPlaylist (Some two_tracks) init)) /\
  currentPlaylist (handle TimerNext (set_currentPlaylist (Some two_tracks) init))
  = Some (at_index two_tracks 0).
Proof.
  assert (Inv (set_currentPlaylist (Some two_tracks) init)) as HI.
  { intros pl [= <-]. split; simpl; [done|lia]. }
  split; [exact HI|]. split; [|reflexivity].
  apply (proj1 (proj2 playlist_invariant)). exact HI.
Defined.

End Invariant.

Lemma advance_wraparound_witness :
  advance two_tracks = at_index two_tracks 0 /\
  Nat.iter 2 advance two_tracks = two_tracks /\
  Nat.iter 1 advance two_tracks <> two_tracks /\
  currentPlaylist
    (Nat.iter 2 playNextTrackInPlaylist
       (set_currentPlaylist (Some two_tracks) init))
  = Some two_tracks.
Proof.
  assert (videos two_tracks <> []) as Hne by (simpl; discriminate).
  assert (currentIndex two_tracks < length (videos two_tracks)) as Hlt
    by (simpl; lia).
  destruct (advance_wraparound two_tracks Hne Hlt)
    as (Hstep & _ & Hloop & Hearly & Hnext).
  split; [exact Hstep|]. split; [exact Hloop|]. split.
  - apply Hearly. simpl. lia.
  - apply (Hnext (set_currentPlaylist (Some two_tracks) init));
      [reflexivity|repeat constructor].
Defined.

(** ** Staging a track *)

Section Staging.

Lemma announcement_text_nonempty (s : string) :
  bool_decide ("Changing now to " ++ s = "") = false.
Proof. apply bool_decide_eq_false. discriminate. Qed.

(** A successful response stages its own track and starts its
    announcement, whatever was selected or staged before. *)
Lemma response_stages (st : State) (videoId title : option string)
    (status : nat) (data : PlayData) :
  let st' :=
    handle (PlayResponse videoId title (Response true status (Some data))) st
  in
  nextAudioInfo st' = Some (staged_by title data) /\
  ttsPlayer st' = mkChannel (Some (announcement (staged_by title data))) false /\
  audioPlayer st' = mkChannel (src (audioPlayer st)) true /\
  isTTSPlaying st' = true /\
  log st' = (log st ++ [ActPause Primary;
                        ActSetSrc Announcement
                          (announcement (staged_by title data));
                        ActPlay Announcement])%list.
Proof.
  unfold handle, seq, fetchAndPrepareVideo_resume, checked.
  cbv beta iota. unfold seq, playTTS.
  rewrite announcement_text_nonempty.
  unfold_cmd; simpl.
  destruct (currentPlaylist st); simpl;
    rewrite <- ?app_assoc; by repeat split.
Qed.

(** The Primary channel takes over the staged track when the announcement
    ends. *)
Lemma ended_plays_staged (st : State) (info : AudioInfo) :
  nextAudioInfo st = Some info ->
  let st' := handle TtsEnded st in
  audioPlayer st' = mkChannel (Some (stream_of info)) false /\
  nextAudioInfo st' = None /\
  currentTrackText (dom st') = title info /\
  log st'
  = (log st ++ [ActSetSrc Primary (stream_of info); ActPlay Primary])%list.
Proof.
  intros Hinfo. simpl. unfold onTtsEnded, seq, playMainAudio. simpl.
  rewrite Hinfo. unfold_cmd; simpl. rewrite <- app_assoc. by repeat split.
Qed.


End Staging.


(** ** Failures of the announcement and of the resolve call *)

Section Failures.

(** C4. With a track staged, an ['error'] event of the Announcement channel
    and a rejected [ttsPlayer.play()] both hand the staged track to the
    Primary channel: its source is the staged stream, [play()] is called,
    the staged track is consumed, and globals, channels and issued commands
    are those the ['ended'] event of the announcement would have left. *)
Theorem announcement_failure_plays_staged (st : State) (info : AudioInfo)
    (ev : Event) :
  nextAudioInfo st = Some info ->
  ev = TtsError \/ ev = TtsPlayRejected ->
  let st' := handle ev st in
  let ended := handle TtsEnded st in
  audioPlayer st' = mkChannel (Some (stream_of info)) false /\
  log st'
  = (log st ++ [ActSetSrc Primary (stream_of info); ActPlay Primary])%list /\
  PAudioPlay ∈ pending st' /\
  currentTrackText (dom st') = title info /\
  nextAudioInfo st' = None /\
  isTTSPlaying st' = false /\
  audioPlayer st' = audioPlayer ended /\
  ttsPlayer st' = ttsPlayer ended /\
  currentPlaylist st' = currentPlaylist ended /\
  nextAudioInfo st' = nextAudioInfo ended /\
  log st' = log ended.
Proof.
  intros Hinfo [-> | ->]; simpl;
    unfold onTtsError, onTtsPlayRejected, onTtsEnded, seq, playMainAudio;
    simpl; rewrite Hinfo; unfold_cmd; simpl; rewrite <- ?app_assoc;
    repeat split; try reflexivity;
    apply elem_of_app; right; apply list_elem_of_singleton; reflexivity.
Qed.


End Failures.

Lemma announcement_failure_plays_staged_witness :
  exists st,
    exec init [ResultClick (Some item_A);
               PlayResponse (Some "idA") (Some "Song A") resolved_A]
    = Some st /\
    nextAudioInfo st = Some (mkAudioInfo (Some "urlA") (Some "Title A")) /\
    audioPlayer (handle TtsError st) = mkChannel (Some (Stream "urlA")) false.
Proof.
  eexists. split; [vm_compute; reflexivity|]. split; [reflexivity|].
  refine (proj1 (announcement_failure_plays_staged
                   _ (mkAudioInfo (Some "urlA") (Some "Title A")) TtsError
                   _ _));
    [reflexivity|left; reflexivity].
Defined.



(** ** Advancing through a playlist *)

Section Advance.

(** [playNextTrackInPlaylist] when the video under the advanced cursor has
    an id: the cursor moves, the video is requested, and neither channel is
    touched. *)
Lemma playNext_effects (st : State) (pl : Playlist) (v : Video) :
  currentPlaylist st = Some pl ->
  playlist_ok pl ->
  videos pl !! currentIndex (advance pl) = Some v ->
  truthy (v_id v) = true ->
  let st' := playNextTrackInPlaylist st in
  currentPlaylist st' = Some (advance pl) /\
  log st' = (log st ++ [ActFetch (ApiPlay (v_id v))])%list /\
  pending st' = (pending st ++ [PFetchPlay (v_id v) (v_title v)])%list /\
  audioPlayer st' = audioPlayer st /\
  ttsPlayer st' = ttsPlayer st /\
  nextAudioInfo st' = nextAudioInfo st.
Proof.
  intros Hpl [Hne Hlt] Hv Hid. simpl. unfold playNextTrackInPlaylist.
  rewrite Hpl.
  case_bool_decide as Hlen; [destruct (videos pl); simpl in *; done|].
  change (videos (advance pl)) with (videos pl).
  rewrite Hv, Hid. by repeat split.
Qed.

Lemma next_video_exists (pl : Playlist) :
  playlist_ok pl -> all_ids pl ->
  exists v, videos pl !! currentIndex (advance pl) = Some v /\
            truthy (v_id v) = true.
Proof.
  intros [Hne Hlt] Hids.
  destruct (lookup_lt_is_Some_2 (videos pl) _ (advance_in_range pl Hne))
    as [v Hv].
  exists v. split; [exact Hv|].
  eapply Forall_lookup_1 in Hids; [exact Hids|exact Hv].
Qed.








End Advance.



(** ** The next button *)

Section NextButton.

Lemma app_one_neq {A : Type} (l : list A) (x : A) : (l ++ [x])%list <> l.
Proof.
  intros H. apply (f_equal length) in H. rewrite length_app in H.
  simpl in H. lia.
Qed.

(** What [playNextTrackInPlaylist] issues: at most one request, and never a
    command to a channel. *)
Lemma playNext_log (st : State) :
  log (playNextTrackInPlaylist st) = log st \/
  exists id, log (playNextTrackInPlaylist st)
             = (log st ++ [ActFetch (ApiPlay id)])%list.
Proof.
  unfold playNextTrackInPlaylist.
  destruct (currentPlaylist st) as [pl|]; [|by left].
  case_bool_decide; [by left|].
  destruct (videos (advance pl) !! currentIndex (advance pl)) as [v|];
    [destruct (truthy (v_id v))|].
  - right. by exists (v_id v).
  - by left.
  - by left.
Qed.

Lemma playNext_channels (st : State) :
  audioPlayer (playNextTrackInPlaylist st) = audioPlayer st /\
  ttsPlayer (playNextTrackInPlaylist st) = ttsPlayer st.
Proof.
  unfold playNextTrackInPlaylist.
  destruct (currentPlaylist st) as [pl|]; [|by split].
  case_bool_decide; [by split|].
  destruct (videos (advance pl) !! currentIndex (advance pl)) as [v|];
    [destruct (truthy (v_id v))|]; by split.
Qed.

End NextButton.

(** C5 (as stated) fails: the first track of a playlist is playing on the
    Primary channel; the next button is pressed. The cursor advances and the
    second track is requested, but no [pause()] is issued: both elements
    stay as they were, the Primary channel still on the first track. *)
Lemma next_does_not_silence :
  exists st,
    exec init [ResultClick (Some item_P);
               PlaylistResponse (Some "PL1") listed_P;
               PlayResponse (Some "a") (Some "A") resolved_A;
               TtsPlayResolved; TtsEnded]
    = Some st /\
    audioPlayer st = mkChannel (Some (Stream "urlA")) false /\
    step st NextClick = Some (handle NextClick st) /\
    (exists pl, currentPlaylist (handle NextClick st) = Some pl /\
                currentIndex pl = 1) /\
    log (handle NextClick st)
    = (log st ++ [ActFetch (ApiPlay (Some "b"))])%list /\
    audioPlayer (handle NextClick st)
    = mkChannel (Some (Stream "urlA")) false /\
    paused (ttsPlayer (handle NextClick st)) = false.
Proof.
  eexists. split; [vm_compute; reflexivity|].
  split; [reflexivity|]. split; [reflexivity|].
  split; [eexists; split; reflexivity|]. by repeat split.
Qed.

(** ** Handing over between the two channels *)

Section Handover.

Lemma playMainAudio_log (st : State) :
  match nextAudioInfo st with
  | Some info =>
      log (playMainAudio st)
      = (log st ++ [ActSetSrc Primary (stream_of info); ActPlay Primary])%list
  | None => log (playMainAudio st) = log st
  end.
Proof.
  unfold playMainAudio. destruct (nextAudioInfo st) as [info|].
  - unfold_cmd; simpl. by rewrite <- app_assoc.
  - by destruct (currentPlaylist st).
Qed.

Lemma no_emission (st st' : State) (ev : Event) :
  log st' = log st ->
  exists acts, log st' = (log st ++ acts)%list /\ emission st ev acts.
Proof. intros H. exists []. rewrite app_nil_r. split; [exact H|by left]. Qed.

Lemma playNext_emission (st st0 : State) (ev : Event) :
  log st0 = log st ->
  exists acts,
    log (playNextTrackInPlaylist st0) = (log st ++ acts)%list /\
    emission st ev acts.
Proof.
  intros H0. destruct (playNext_log st0) as [H|[id H]]; rewrite H, H0.
  - by apply no_emission.
  - exists [ActFetch (ApiPlay id)]. split; [done|]. right; left. by eexists.
Qed.

Lemma announcement_signal_emission (st st0 : State) (ev : Event) :
  ev = TtsEnded \/ ev = TtsError \/ ev = TtsPlayRejected ->
  log st0 = log st ->
  nextAudioInfo st0 = nextAudioInfo st ->
  exists acts,
    log (playMainAudio st0) = (log st ++ acts)%list /\ emission st ev acts.
Proof.
  intros Hev Hlog Hinfo. pose proof (playMainAudio_log st0) as H.
  rewrite Hinfo, Hlog in H. destruct (nextAudioInfo st) as [info|] eqn:Hst.
  - eexists. split; [exact H|]. do 5 right. exists info.
    by repeat split.
  - by apply no_emission.
Qed.

(** The log only grows, by one of the shapes of [emission]. *)
Lemma handle_emission (st : State) (ev : Event) :
  exists acts,
    log (handle ev st) = (log st ++ acts)%list /\ emission st ev acts.
Proof.
  destruct ev as [item| |playlistId r|videoId ttl r| | | | | |
                 |name message| |err];
    unfold handle, seq.
  - unfold handleResultClick. destruct item as [ds|]; [|by apply no_emission].
    destruct (truthy (ds_id ds)); [|by apply no_emission].
    case_bool_decide; unfold_cmd; simpl; rewrite <- app_assoc; simpl;
      eexists; (split; [reflexivity|]); right; right; left; by eexists.
  - by apply playNext_emission.
  - unfold fetchPlaylist_resume.
    destruct (checked _ _ _ r) as [m|data]; [by apply no_emission|].
    destruct (pd_videos data) as [[|v vs]|]; try by apply no_emission.
    eexists. split; [reflexivity|]. right; left. by eexists.
  - destruct (checked d_error "Failed to load track" "audioUrl" r)
      as [m|data] eqn:Hr.
    + apply no_emission. unfold fetchAndPrepareVideo_resume. rewrite Hr.
      unfold_cmd; simpl. by destruct (currentPlaylist st).
    + assert (exists status, r = Response true status (Some data))
        as [status ->].
      { destruct r as [?|[|] status [d|]]; simpl in Hr; try discriminate.
        injection Hr as ->. by exists status. }
      destruct (response_stages st videoId ttl status data)
        as (_ & _ & _ & _ & Hlog).
      eexists. split; [exact Hlog|]. do 4 right; left. by eexists.
  - by apply playNext_emission.
  - by apply no_emission.
  - apply announcement_signal_emission; [by right; right|done..].
  - apply announcement_signal_emission; [by left|done..].
  - apply announcement_signal_emission; [by right; left|done..].
  - apply no_emission. unfold onAudioPlayResolved.
    by destruct (nextAudioInfo _).
  - apply no_emission. unfold_cmd. by case_bool_decide.
  - unfold onAudioEnded. destruct (currentPlaylist st).
    + by apply playNext_emission.
    + by apply no_emission.
  - unfold onAudioError, seq, showError, seq. simpl.
    destruct (currentPlaylist st).
    + eexists. split; [reflexivity|]. by do 3 right; left.
    + by apply no_emission.
Qed.

(** C6 (amended). The Primary channel is loaded and played only while the
    script handles a terminal signal of the Announcement channel
    (['ended'], ['error'], or a rejected [play()]), and then with the track
    staged at that moment; the announcement is started only after
    [audioPlayer.pause()], in the same turn. The script never pauses the
    Announcement channel. *)
Theorem channel_handover (st : State) (ev : Event) :
  exists acts,
    log (handle ev st) = (log st ++ acts)%list /\
    ((ActPlay Primary ∈ acts \/ exists u, ActSetSrc Primary u ∈ acts) ->
     (ev = TtsEnded \/ ev = TtsError \/ ev = TtsPlayRejected) /\
     exists info,
       nextAudioInfo st = Some info /\
       acts = [ActSetSrc Primary (stream_of info); ActPlay Primary]) /\
    (ActPlay Announcement ∈ acts ->
     exists text,
       acts = [ActPause Primary; ActSetSrc Announcement (ApiTts text);
               ActPlay Announcement]) /\
    ActPause Announcement ∉ acts.
Proof.
  destruct (handle_emission st ev) as (acts & Hlog & Hacts).
  exists acts. split; [exact Hlog|].
  destruct Hacts
    as [->|[[u ->]|[[u ->]|[->|[[text ->]|(info & Hi & Hev & ->)]]]]];
    (split; [|split]);
    try (intros [H|[u' H]]; absurd_elem H);
    try (intros H; absurd_elem H).
  - intros _. by eexists.
  - intros _. split; [exact Hev|]. by exists info.
Qed.

End Handover.

(** ** The next request and the pauses *)

Section NextRequest.

(** The commands of one turn contain no [pause()], except in the turn of a
    successful resolve response, which pauses the Primary element and
    starts that track's announcement. *)
Lemma turn_pauses (st : State) (ev : Event) :
  exists acts,
    log (handle ev st) = (log st ++ acts)%list /\
    ((forall c, ActPause c ∉ acts) \/
     exists videoId title status data,
       ev = PlayResponse videoId title (Response true status (Some data)) /\
       acts = [ActPause Primary;
               ActSetSrc Announcement (announcement (staged_by title data));
               ActPlay Announcement]).
Proof.
  assert (forall l, l = log st ->
            exists acts, l = (log st ++ acts)%list /\
              ((forall c, ActPause c ∉ acts) \/
               exists videoId title status data,
                 ev = PlayResponse videoId title
                        (Response true status (Some data)) /\
                 acts = [ActPause Primary;
                         ActSetSrc Announcement
                           (announcement (staged_by title data));
                         ActPlay Announcement])) as Hquiet.
  { intros l Hl. exists []. rewrite app_nil_r. split; [exact Hl|].
    left. intros c Hc. by apply elem_of_nil in Hc. }
  assert (forall l acts, l = (log st ++ acts)%list ->
            (forall c, ActPause c ∉ acts) ->
            exists acts, l = (log st ++ acts)%list /\
              ((forall c, ActPause c ∉ acts) \/
               exists videoId title status data,
                 ev = PlayResponse videoId title
                        (Response true status (Some data)) /\
                 acts = [ActPause Primary;
                         ActSetSrc Announcement
                           (announcement (staged_by title data));
                         ActPlay Announcement])) as Hacts.
  { intros l acts Hl Hno. exists acts. split; [exact Hl|by left]. }
  assert (forall s, log s = log st ->
            exists acts, log (playNextTrackInPlaylist s)
                         = (log st ++ acts)%list /\
                         forall c, ActPause c ∉ acts) as Hnext.
  { intros s Hs. destruct (playNext_log s) as [H|[id H]]; rewrite H, Hs.
    - exists []. rewrite app_nil_r. split; [done|].
      intros c Hc. by apply elem_of_nil in Hc.
    - exists [ActFetch (ApiPlay id)]. split; [done|].
      intros c Hc. absurd_elem Hc. }
  assert (forall s, log s = log st ->
            exists acts, log (playMainAudio s) = (log st ++ acts)%list /\
                         forall c, ActPause c ∉ acts) as Hmain.
  { intros s Hs. pose proof (playMainAudio_log s) as H.
    destruct (nextAudioInfo s) as [info|]; rewrite H, Hs.
    - eexists. split; [reflexivity|]. intros c Hc. absurd_elem Hc.
    - exists []. rewrite app_nil_r. split; [done|].
      intros c Hc. by apply elem_of_nil in Hc. }
  destruct ev as [item| |playlistId r|videoId ttl r| | | | | |
                 |name message| |err];
    unfold handle, seq.
  - unfold handleResultClick. destruct item as [ds|]; [|by apply Hquiet].
    destruct (truthy (ds_id ds)); [|by apply Hquiet].
    case_bool_decide; unfold_cmd; simpl; rewrite <- app_assoc; simpl;
      (eapply Hacts; [reflexivity|]); intros c Hc; absurd_elem Hc.
  - destruct (Hnext st eq_refl) as (acts & H & Hno). by apply (Hacts _ acts).
  - unfold fetchPlaylist_resume.
    destruct (checked _ _ _ r) as [m|data]; [by apply Hquiet|].
    destruct (pd_videos data) as [[|v vs]|]; try by apply Hquiet.
    eapply Hacts; [reflexivity|]. intros c Hc. absurd_elem Hc.
  - destruct (checked d_error "Failed to load track" "audioUrl" r)
      as [m|data] eqn:Hr.
    + apply Hquiet. unfold fetchAndPrepareVideo_resume. rewrite Hr.
      unfold_cmd; simpl. by destruct (currentPlaylist st).
    + assert (exists status, r = Response true status (Some data))
        as [status ->].
      { destruct r as [?|[|] status [d|]]; simpl in Hr; try discriminate.
        injection Hr as ->. by exists status. }
      destruct (response_stages st videoId ttl status data)
        as (_ & _ & _ & _ & Hlog).
      eexists. split; [exact Hlog|]. right. by exists videoId, ttl, status, data.
  - destruct (Hnext (settle PTimerNext st) eq_refl) as (acts & H & Hno).
    by apply (Hacts _ acts).
  - by apply Hquiet.
  - destruct (Hmain (set_isTTSPlaying false (settle PTtsPlay st)) eq_refl)
      as (acts & H & Hno).
    by apply (Hacts _ acts).
  - destruct (Hmain (set_isTTSPlaying false st) eq_refl) as (acts & H & Hno).
    by apply (Hacts _ acts).
  - destruct (Hmain (showError
                       "TTS announcement failed. Playing track directly."
                       (set_isTTSPlaying false st)) eq_refl)
      as (acts & H & Hno).
    by apply (Hacts _ acts).
  - apply Hquiet. unfold onAudioPlayResolved. by destruct (nextAudioInfo _).
  - apply Hquiet. unfold_cmd. by case_bool_decide.
  - unfold onAudioEnded. destruct (currentPlaylist st).
    + destruct (Hnext st eq_refl) as (acts & H & Hno).
      by apply (Hacts _ acts).
    + by apply Hquiet.
  - unfold onAudioError, seq, showError, seq. simpl.
    destruct (currentPlaylist st).
    + eapply Hacts; [reflexivity|]. intros c Hc. absurd_elem Hc.
    + by apply Hquiet.
Qed.

(** [playNextTrackInPlaylist] when the video under the advanced cursor has
    no id: the playlist is given up with an error and nothing is
    requested. *)
Lemma playNext_without_id (st : State) (pl : Playlist) (v : Video) :
  currentPlaylist st = Some pl ->
  playlist_ok pl ->
  videos pl !! currentIndex (advance pl) = Some v ->
  truthy (v_id v) = false ->
  let st' := playNextTrackInPlaylist st in
  currentPlaylist st' = None /\
  pending st' = pending st /\
  log st' = log st /\
  errorHidden (dom st') = false /\
  errorText (dom st') = "Error in playlist. Cannot play next track." /\
  nextHidden (dom st') = true /\
  playlistInfoHidden (dom st') = true.
Proof.
  intros Hpl [Hne Hlt] Hv Hid. simpl. unfold playNextTrackInPlaylist.
  rewrite Hpl.
  case_bool_decide as Hlen; [destruct (videos pl); simpl in *; done|].
  change (videos (advance pl)) with (videos pl).
  rewrite Hv, Hid. by repeat split.
Qed.

(** C5 (amended). A "next" request does nothing when no playlist is active
    and, in a state that satisfies the playlist invariant, only then. When a
    playlist is active it advances the cursor (wrapping to 0) and, if the
    video under the cursor has an id, requests it; if that video has no id
    it shows "Error in playlist. Cannot play next track." and gives the
    playlist up without a request. It pauses neither channel: both audio
    elements are left as they are. In any turn of the event loop the
    Primary channel is paused only by a successful resolve response, right
    before that track's announcement is started, and the Announcement
    channel is never paused. *)
Theorem next_request (st : State) :
  (currentPlaylist st = None -> handle NextClick st = st) /\
  (Inv st -> (handle NextClick st = st <-> currentPlaylist st = None)) /\
  (forall pl,
     currentPlaylist st = Some pl -> playlist_ok pl ->
     exists v,
       videos pl !! currentIndex (advance pl) = Some v /\
       advance pl
       = at_index pl (if bool_decide (currentIndex pl = length (videos pl) - 1)
                      then 0 else currentIndex pl + 1) /\
       (truthy (v_id v) = true ->
        currentPlaylist (handle NextClick st) = Some (advance pl) /\
        pending (handle NextClick st)
        = (pending st ++ [PFetchPlay (v_id v) (v_title v)])%list /\
        log (handle NextClick st)
        = (log st ++ [ActFetch (ApiPlay (v_id v))])%list) /\
       (truthy (v_id v) = false ->
        currentPlaylist (handle NextClick st) = None /\
        pending (handle NextClick st) = pending st /\
        log (handle NextClick st) = log st /\
        errorHidden (dom (handle NextClick st)) = false /\
        errorText (dom (handle NextClick st))
        = "Error in playlist. Cannot play next track.")) /\
  audioPlayer (handle NextClick st) = audioPlayer st /\
  ttsPlayer (handle NextClick st) = ttsPlayer st /\
  (exists acts,
     log (handle NextClick st) = (log st ++ acts)%list /\
     forall c, ActPause c ∉ acts) /\
  (forall ev s acts,
     log (handle ev s) = (log s ++ acts)%list ->
     (ActPause Announcement ∉ acts) /\
     (ActPause Primary ∈ acts ->
      exists videoId title status data,
        ev = PlayResponse videoId title (Response true status (Some data)) /\
        acts = [ActPause Primary;
                ActSetSrc Announcement (announcement (staged_by title data));
                ActPlay Announcement])).
Proof.
  assert (currentPlaylist st = None -> handle NextClick st = st) as Hnone.
  { intros Hpl. simpl. unfold playNextTrackInPlaylist. by rewrite Hpl. }
  split; [exact Hnone|]. split; [|split; [|split; [|split; [|split]]]].
  - intros HI. split; [|exact Hnone].
    intros Hsame. destruct (currentPlaylist st) as [pl|] eqn:Hpl; [|done].
    exfalso. destruct (HI pl Hpl) as [Hne Hlt].
    revert Hsame. simpl. unfold playNextTrackInPlaylist. rewrite Hpl.
    case_bool_decide as Hlen; [destruct (videos pl); simpl in *; done|].
    destruct (videos (advance pl) !! currentIndex (advance pl)) as [v|];
      [destruct (truthy (v_id v))|];
      intros Hsame.
    + apply (f_equal log) in Hsame. simpl in Hsame.
      by apply app_one_neq in Hsame.
    + apply (f_equal currentPlaylist) in Hsame. simpl in Hsame. congruence.
    + apply (f_equal currentPlaylist) in Hsame. simpl in Hsame. congruence.
  - intros pl Hpl Hok.
    destruct (lookup_lt_is_Some_2 (videos pl) _
                (advance_in_range pl (proj1 Hok))) as [v Hv].
    exists v. split; [exact Hv|]. split; [|split].
    + unfold advance, at_index. f_equal. destruct Hok as [_ Hlt].
      repeat case_bool_decide; lia.
    + intros Hid.
      destruct (playNext_effects st pl v Hpl Hok Hv Hid)
        as (H1 & H2 & H3 & _).
      by repeat split.
    + intros Hid.
      destruct (playNext_without_id st pl v Hpl Hok Hv Hid)
        as (H1 & H2 & H3 & H4 & H5 & _).
      by repeat split.
  - apply playNext_channels.
  - apply playNext_channels.
  - simpl. destruct (playNext_log st) as [H|[id H]].
    + exists []. rewrite H, app_nil_r. split; [done|]. intros c Hc.
      by apply elem_of_nil in Hc.
    + exists [ActFetch (ApiPlay id)]. split; [exact H|]. intros c Hc.
      apply list_elem_of_singleton in Hc. discriminate Hc.
  - intros ev s acts Hlog.
    destruct (turn_pauses s ev) as (acts' & Hlog' & Hcases).
    assert (acts = acts') as <-.
    { apply (app_inv_head (log s)). congruence. }
    destruct Hcases as [Hno|(videoId & title & status & data & -> & ->)].
    + split; [apply Hno|]. intros Hin. by apply Hno in Hin.
    + split; [intros Hin; absurd_elem Hin|]. intros _.
      by exists videoId, title, status, data.
Qed.

End NextRequest.

Lemma next_request_witness :
  currentPlaylist (handle NextClick (set_currentPlaylist (Some two_tracks) init))
  = Some (at_index two_tracks 0) /\
  log (handle NextClick (set_currentPlaylist (Some two_tracks) init))
  = [ActFetch (ApiPlay (Some "a"))].
Proof.
  destruct (proj1 (proj2 (proj2 (next_request
              (set_currentPlaylist (Some two_tracks) init))))
              two_tracks)
    as (v & Hv & _ & Hid & _).
  - reflexivity.
  - split; simpl; [discriminate|lia].
  - assert (v = mkVideo (Some "a") (Some "A")) as -> by (by injection Hv).
    destruct Hid as (H1 & _ & H3); [reflexivity|].
    split; [exact H1|exact H3].
Defined.

Lemma channel_handover_witness :
  exists st,
    exec init [ResultClick (Some item_A);
               PlayResponse (Some "idA") (Some "Song A") resolved_A;
               TtsPlayResolved]
    = Some st /\
    log (handle TtsEnded st)
    = (log st ++ [ActSetSrc Primary (Stream "urlA"); ActPlay Primary])%list /\
    nextAudioInfo st = Some (mkAudioInfo (Some "urlA") (Some "Title A")).
Proof.
  eexists. split; [vm_compute; reflexivity|].
  match goal with |- log (handle _ ?s) = _ /\ _ => set (st := s) end.
  destruct (channel_handover st TtsEnded) as (acts & Hlog & Hprimary & _).
  assert (acts = [ActSetSrc Primary (Stream "urlA"); ActPlay Primary]) as Hacts.
  { apply (app_inv_head (log st)). rewrite <- Hlog. reflexivity. }
  destruct Hprimary as (_ & info & Hinfo & _).
  { left. rewrite Hacts. apply list_elem_of_In. right. left. reflexivity. }
  split; [reflexivity|reflexivity].
Defined.

(** C6 (as stated) fails: A is resolved and its announcement is requested;
    B is selected and resolved before that announcement has started, so the
    announcement element is pointed at B's announcement and played. The
    [play()] promise of A's announcement is rejected. The Primary channel is
    loaded with B's stream and played although B's announcement has sent no
    terminal signal (its own [play()] promise is still pending), and the
    Announcement channel is never paused. *)
Lemma primary_starts_during_announcement :
  exists st,
    exec init [ResultClick (Some item_A);
               PlayResponse (Some "idA") (Some "Song A") resolved_A;
               ResultClick (Some item_B);
               PlayResponse (Some "idB") (Some "Song B") resolved_B;
               TtsPlayRejected]
    = Some st /\
    audioPlayer st = mkChannel (Some (Stream "urlB")) false /\
    ttsPlayer st = mkChannel (Some (ApiTts "Changing now to Title B")) false /\
    pending st = [PTtsPlay; PAudioPlay] /\
    log st = [ActRemoveSrc Primary; ActFetch (ApiPlay (Some "idA"));
              ActPause Primary;
              ActSetSrc Announcement (ApiTts "Changing now to Title A");
              ActPlay Announcement;
              ActRemoveSrc Primary; ActFetch (ApiPlay (Some "idB"));
              ActPause Primary;
              ActSetSrc Announcement (ApiTts "Changing now to Title B");
              ActPlay Announcement;
              ActSetSrc Primary (Stream "urlB"); ActPlay Primary].
Proof. eexists. split; [vm_compute; reflexivity|]. by repeat split. Qed.

(** ** Replies of the API *)

Section Replies.

Context {Stream : Type} (gtts : string -> string -> Outcome Stream).


(** C10. Every entry of a search reply and of a playlist reply has a
    non-empty id and a non-empty title. *)
Theorem returned_items_complete
    (search : string -> Outcome (list RawVideo))
    (getPlaylist : string -> Outcome (option RawPlaylist))
    (q id : option string) :
  (forall items, api_search search q = Ok items ->
     forall item, item ∈ items ->
       truthy (si_id item) = true /\ truthy (si_title item) = true) /\
  (forall body, api_playlist getPlaylist id = Ok body ->
     forall video, video ∈ pb_videos body ->
       truthy (pi_id video) = true /\ truthy (pi_title video) = true).
Proof.
  split.
  - intros items Hreply item Hin. unfold api_search in Hreply.
    destruct (negb (truthy q)); [discriminate|].
    destruct (search _) as [m|results]; [discriminate|].
    injection Hreply as <-.
    apply list_elem_of_filter in Hin as [Hok _].
    apply andb_True in Hok as [H1 H2].
    by split; apply Is_true_true.
  - intros body Hreply video Hin. unfold api_playlist in Hreply.
    destruct (negb (truthy id) || negb (is_playlist_id (to_str id)));
      [discriminate|].
    destruct (getPlaylist _) as [m|[[ptitle [[|v vs]|]]|]];
      try discriminate.
    + by destruct (includes "not found" m || includes "Invalid Playlist ID" m).
    + injection Hreply as <-. simpl in Hin.
      apply list_elem_of_filter in Hin as [Hok _].
      apply andb_True in Hok as [H1 H2].
      by split; apply Is_true_true.
Qed.

End Replies.


Lemma returned_items_complete_witness :
  api_search found (Some "lofi")
  = Ok [mkSearchItem (Some "a") (Some "A") None (Some "3:05")] /\
  api_playlist listed (Some "PL1")
  = Ok (mkPlaylistBody (Some "Chill")
          [mkPlaylistItem (Some "a") (Some "A") (Some "3:05")]) /\
  truthy (si_title (mkSearchItem (Some "a") (Some "A") None (Some "3:05")))
  = true /\
  truthy (pi_title (mkPlaylistItem (Some "a") (Some "A") (Some "3:05")))
  = true.
Proof.
  split; [reflexivity|]. split; [reflexivity|]. split.
  - refine (proj2 (proj1 (returned_items_complete found listed
                            (Some "lofi") (Some "PL1")) _ _ _ _)).
    + reflexivity.
    + apply list_elem_of_In. left. reflexivity.
  - refine (proj2 (proj2 (returned_items_complete found listed
                            (Some "lofi") (Some "PL1")) _ _ _ _)).
    + reflexivity.
    + apply list_elem_of_In. left. reflexivity.
Defined.

(** ** Substrings *)

Section Substrings.

Lemma append_cons (a : Ascii.ascii) (s t : string) :
  String a s ++ t = String a (s ++ t).
Proof. reflexivity. Qed.

Lemma append_empty (t : string) : "" ++ t = t.
Proof. reflexivity. Qed.

Lemma prefix_spec (s t : string) :
  String.prefix s t = true <-> exists post, t = s ++ post.
Proof.
  revert t. induction s as [|a s IH]; intros t.
  - split; [intros _; by exists t|intros _; by destruct t].
  - destruct t as [|b t]; simpl.
    + split; [done|]. intros (post & H). by rewrite append_cons in H.
    + destruct (Ascii.ascii_dec a b) as [<-|Hne].
      * rewrite IH. split; intros (post & H); exists post;
          rewrite append_cons in *; congruence.
      * split; [done|]. intros (post & H). rewrite append_cons in H.
        congruence.
Qed.

Lemma includes_cons (s : string) (c : Ascii.ascii) (t : string) :
  includes s (String c t) = String.prefix s (String c t) || includes s t.
Proof. reflexivity. Qed.

Lemma includes_empty (s : string) : includes s "" = String.prefix s "".
Proof. apply orb_false_r. Qed.

Lemma includes_spec (s t : string) :
  includes s t = true <-> substring_of s t.
Proof.
  unfold substring_of. induction t as [|c t IH].
  - rewrite includes_empty, prefix_spec. split.
    + intros (post & H). by exists "", post.
    + intros (pre & post & H). destruct pre.
      * by exists post.
      * by rewrite append_cons in H.
  - rewrite includes_cons, orb_true_iff, prefix_spec, IH. split.
    + intros [(post & H)|(pre & post & H)].
      * by exists "", post.
      * exists (String c pre), post. by rewrite append_cons, H.
    + intros (pre & post & H). destruct pre as [|c' pre].
      * left. by exists post.
      * right. exists pre, post. rewrite append_cons in H. congruence.
Qed.

End Substrings.

(** ** More on the replies of the search and playlist endpoints *)

Section Listings.

Lemma filter_map_exact {A B : Type} (f : A -> B) (P : B -> bool)
    (l : list A) (y : B) :
  y ∈ filter (fun b => P b) (map f l)
  <-> exists x, x ∈ l /\ P (f x) = true /\ y = f x.
Proof.
  rewrite list_elem_of_filter, list_elem_of_In, in_map_iff. split.
  - intros (HP & x & <- & Hx). exists x.
    split; [by apply list_elem_of_In|]. split; [by apply Is_true_true|done].
  - intros (x & Hx & HP & ->). split; [by apply Is_true_true|].
    exists x. split; [done|by apply list_elem_of_In].
Qed.

Lemma filter_map_filter {A B : Type} (f : A -> B) (P : B -> bool)
    (l : list A) :
  filter (fun b => P b) (map f l)
  = map f (List.filter (fun a => P (f a)) l).
Proof.
  induction l as [|a l IH]; [done|]. cbn [map List.filter].
  destruct (P (f a)) eqn:HP.
  - rewrite filter_cons_True by (by apply Is_true_true). cbn [map].
    by rewrite IH.
  - rewrite filter_cons_False; [exact IH|].
    intros HT. apply Is_true_true in HT. congruence.
Qed.

(** The search reply lists exactly the complete results of the library,
    in the library's order and as often as the library lists them: the
    library was asked for the query followed by " chill relaxing music",
    and the reply is the list of its results with the incomplete ones
    taken out, each simplified. *)
Theorem search_reply_exact (search : string -> Outcome (list RawVideo))
    (q : option string) (items : list SearchItem) :
  api_search search q = Ok items ->
  exists results,
    search (to_str q ++ " chill relaxing music") = Returns results /\
    items = map simplified (List.filter is_complete results) /\
    items `sublist_of` map simplified results /\
    forall item,
      item ∈ items <->
      exists raw, raw ∈ results /\ complete raw /\ item = simplified raw.
Proof.
  unfold api_search. destruct (negb (truthy q)); [discriminate|].
  destruct (search _) as [m|results]; [discriminate|].
  intros [= <-]. exists results. split; [reflexivity|]. split; [|split].
  - apply (filter_map_filter simplified
             (fun i => truthy (si_id i) && truthy (si_title i))).
  - apply sublist_filter.
  - intros item.
    rewrite (filter_map_exact simplified
               (fun i => truthy (si_id i) && truthy (si_title i))).
    unfold complete. split; intros (raw & Hin & H & ->); exists raw;
      (split; [done|]); (split; [|done]).
    + by apply andb_true_iff in H.
    + by apply andb_true_iff.
Qed.

(** The playlist reply has a non-empty title (the library's, or "Playlist")
    and lists exactly the complete videos of the library's playlist, in
    order and as often as the playlist holds them. *)
Theorem playlist_reply_exact
    (getPlaylist : string -> Outcome (option RawPlaylist))
    (id : option string) (body : PlaylistBody) :
  api_playlist getPlaylist id = Ok body ->
  exists ptitle raws,
    getPlaylist (to_str id) = Returns (Some (mkRawPlaylist ptitle (Some raws)))
    /\ raws <> [] /\
    truthy (pb_title body) = true /\
    pb_title body = js_or ptitle (Some "Playlist") /\
    pb_videos body = map playlist_entry (List.filter is_complete raws) /\
    pb_videos body `sublist_of` map playlist_entry raws /\
    forall video,
      video ∈ pb_videos body <->
      exists raw, raw ∈ raws /\ complete raw /\ video = playlist_entry raw.
Proof.
  unfold api_playlist.
  destruct (negb (truthy id) || negb (is_playlist_id (to_str id)));
    [discriminate|].
  destruct (getPlaylist _) as [m|[[ptitle [[|v vs]|]]|]]; try discriminate.
  { by destruct (includes "not found" m || includes "Invalid Playlist ID" m). }
  intros [= <-]. exists ptitle, (v :: vs).
  split; [reflexivity|]. split; [discriminate|].
  split; [|split; [|split; [|split]]].
  - simpl. unfold js_or. by destruct (truthy ptitle) eqn:Ht.
  - reflexivity.
  - apply (filter_map_filter playlist_entry
             (fun i => truthy (pi_id i) && truthy (pi_title i)) (v :: vs)).
  - apply sublist_filter.
  - intros video.
    change (video ∈ filter (fun i => truthy (pi_id i) && truthy (pi_title i))
                     (map playlist_entry (v :: vs))
            <-> exists raw, raw ∈ v :: vs /\ complete raw /\
                            video = playlist_entry raw).
    rewrite (filter_map_exact playlist_entry
               (fun i => truthy (pi_id i) && truthy (pi_title i))).
    unfold complete. split; intros (raw & Hin & H & ->); exists raw;
      (split; [done|]); (split; [|done]).
    + by apply andb_true_iff in H.
    + by apply andb_true_iff.
Qed.

Lemma forallb_false_exists {A : Type} (P : A -> bool) (l : list A) :
  forallb P l = false <-> exists x, x ∈ l /\ P x = false.
Proof.
  induction l as [|a l IH]; simpl.
  - split; [done|]. intros (x & Hx & _). by apply elem_of_nil in Hx.
  - rewrite andb_false_iff, IH. split.
    + intros [Ha|(x & Hx & HP)].
      * exists a. split; [left|done].
      * exists x. split; [by right|done].
    + intros (x & Hx & HP). apply elem_of_cons in Hx as [->|Hx].
      * by left.
      * right. by exists x.
Qed.

(** The playlist endpoint answers 400 exactly when the id is missing, empty
    or contains a character other than a letter, a digit, [_] or [-]; it
    does so without consulting the library. *)
Theorem playlist_id_checked
    (getPlaylist : string -> Outcome (option RawPlaylist))
    (id : option string) :
  let invalid :=
    truthy id = false \/
    exists c, c ∈ String.list_ascii_of_string (to_str id) /\
              is_id_char c = false in
  (invalid ->
   forall lib, api_playlist lib id = Fail 400 playlist_id_required None) /\
  ((exists error details,
      api_playlist getPlaylist id = Fail 400 error details) -> invalid).
Proof.
  simpl. split.
  - intros Hinv lib. unfold api_playlist.
    destruct (truthy id) eqn:Ht; [|reflexivity].
    destruct Hinv as [|Hbad]; [done|].
    apply forallb_false_exists in Hbad. unfold is_playlist_id.
    rewrite Hbad, andb_false_r. reflexivity.
  - intros (error & details & Hreply). unfold api_playlist in Hreply.
    destruct (truthy id) eqn:Ht; [|by left]. right.
    apply forallb_false_exists.
    unfold is_playlist_id in Hreply.
    apply truthy_Some in Ht as (s & -> & Hs). simpl in *.
    rewrite bool_decide_eq_false_2 in Hreply by done. simpl in Hreply.
    destruct (forallb is_id_char _); [|done]. simpl in Hreply.
    destruct (getPlaylist s) as [m|[[ptitle [[|v vs]|]]|]];
      try discriminate.
    by destruct (includes "not found" m || includes "Invalid Playlist ID" m).
Qed.

End Listings.

(** ** The play endpoint *)

Section PlayEndpoint.

Context `{Ytdl}.

Lemma head_insert_by_bitrate (x : Format) (l : list Format) :
  head (insert_by_bitrate x l)
  = Some match head l with
         | Some y => if bool_decide (bitrate y <= bitrate x) then x else y
         | None => x
         end.
Proof. destruct l as [|y l]; simpl; [done|]. by case_bool_decide. Qed.

(** The head of the sorted formats is the first format of highest
    bitrate. *)
Lemma head_sort_by_bitrate (l : list Format) :
  match head (sort_by_bitrate l) with
  | Some f =>
      exists pre post,
        l = (pre ++ f :: post)%list /\
        (forall g, g ∈ pre -> bitrate g < bitrate f) /\
        (forall g, g ∈ post -> bitrate g <= bitrate f)
  | None => l = []
  end.
Proof.
  induction l as [|x l IH]; simpl; [done|].
  rewrite head_insert_by_bitrate.
  destruct (head (sort_by_bitrate l)) as [y|].
  - destruct IH as (pre & post & -> & Hpre & Hpost).
    case_bool_decide as Hle.
    + exists [], (pre ++ y :: post)%list. split; [done|]. split.
      * intros g Hg. by apply elem_of_nil in Hg.
      * intros g Hg. apply elem_of_app in Hg as [Hg|Hg].
        -- apply Hpre in Hg. lia.
        -- apply elem_of_cons in Hg as [->|Hg]; [done|].
           apply Hpost in Hg. lia.
    + exists (x :: pre), post. split; [done|]. split; [|done].
      intros g Hg. apply elem_of_cons in Hg as [->|Hg]; [lia|by apply Hpre].
  - subst l. exists [], []. split; [done|].
    split; intros g Hg; by apply elem_of_nil in Hg.
Qed.

(** A 200 reply of the play endpoint always carries a non-empty stream
    URL: that of the format the library chose or, when it chose none, of
    one of the audio formats; the title is the video's. *)
Theorem play_reply_has_url (id : option string) (body : PlayBody) :
  api_play id = Ok body ->
  truthy (play_audioUrl body) = true /\
  truthy id = true /\ validateID (to_str id) = true /\
  exists info f,
    getInfo (to_str id) = Return info /\
    play_title body = vd_title info /\
    play_audioUrl body = f_url f /\
    (chooseFormat (filterFormats (formats info)) = Return (Some f) \/
     chooseFormat (filterFormats (formats info)) = Return None /\
     f ∈ filterFormats (formats info)).
Proof.
  unfold api_play.
  destruct (truthy id) eqn:Hid; [|discriminate].
  destruct (validateID (to_str id)) eqn:Hvalid; [|discriminate]. simpl.
  destruct (getInfo (to_str id)) as [e|info] eqn:Hinfo.
  { unfold play_catch. repeat case_match; discriminate. }
  destruct (chooseFormat _) as [e|chosen] eqn:Hchosen.
  { unfold play_catch. repeat case_match; discriminate. }
  destruct chosen as [f|].
  - destruct (truthy (f_url f)) eqn:Hurl; [|discriminate].
    intros [= <-]. repeat split; try done.
    exists info, f. repeat split; try done. by left.
  - pose proof (head_sort_by_bitrate (filterFormats (formats info))) as Hbest.
    destruct (head _) as [f|]; [|discriminate].
    destruct (truthy (f_url f)) eqn:Hurl; [|discriminate].
    intros [= <-]. repeat split; try done.
    exists info, f. repeat split; try done. right. split; [done|].
    destruct Hbest as (pre & post & -> & _).
    apply elem_of_app. right. left.
Qed.

(** When the library chooses no format, the handler falls back to the
    first audio format of highest bitrate (a missing bitrate counting as
    0): a 200 reply then carries the URL of that format. *)
Theorem play_fallback_best (id : option string) (info : VideoInfo)
    (body : PlayBody) :
  getInfo (to_str id) = Return info ->
  chooseFormat (filterFormats (formats info)) = Return None ->
  api_play id = Ok body ->
  exists pre f post,
    filterFormats (formats info) = (pre ++ f :: post)%list /\
    play_audioUrl body = f_url f /\
    (forall g, g ∈ pre -> bitrate g < bitrate f) /\
    (forall g, g ∈ post -> bitrate g <= bitrate f).
Proof.
  intros Hinfo Hchosen. unfold api_play.
  destruct (negb (truthy id) || negb (validateID (to_str id)));
    [discriminate|].
  rewrite Hinfo, Hchosen.
  pose proof (head_sort_by_bitrate (filterFormats (formats info))) as Hbest.
  destruct (head _) as [f|]; [|discriminate].
  destruct (truthy (f_url f)); [|discriminate].
  intros [= <-]. destruct Hbest as (pre & post & Hl & Hpre & Hpost).
  by exists pre, f, post.
Qed.

(** How the [catch] block classifies an error: a cause for 404 ("private"
    or "unavailable" in the message, or status code 404) wins over a cause
    for 403 ("age-restricted" or "consent" in the message, or status code
    403); only an error with neither cause gives a 500, and only then is
    the message passed on. *)
Theorem play_catch_classes (e : JsError) :
  let not_found :=
    substring_of "private" (e_message e) \/
    substring_of "unavailable" (e_message e) \/
    e_statusCode e = Some 404 in
  let restricted :=
    substring_of "age-restricted" (e_message e) \/
    e_statusCode e = Some 403 \/
    substring_of "consent" (e_message e) in
  (not_found ->
   play_catch e
   = Fail 404 "Video is private, unavailable, or not found." None) /\
  (~ not_found -> restricted ->
   exists error, play_catch e = Fail 403 error None) /\
  (~ not_found -> ~ restricted ->
   play_catch e
   = Fail 500 "Failed to get video playback information."
          (Some (e_message e))).
Proof.
  simpl. unfold play_catch.
  set (b404 := includes "private" (e_message e)
               || includes "unavailable" (e_message e)
               || bool_decide (e_statusCode e = Some 404)).
  set (b403 := includes "age-restricted" (e_message e)
               || bool_decide (e_statusCode e = Some 403)).
  set (bconsent := includes "consent" (e_message e)).
  assert (b404 = true <->
          substring_of "private" (e_message e) \/
          substring_of "unavailable" (e_message e) \/
          e_statusCode e = Some 404) as H404.
  { unfold b404.
    rewrite !orb_true_iff, !includes_spec, bool_decide_eq_true. tauto. }
  assert (b403 = true \/ bconsent = true <->
          substring_of "age-restricted" (e_message e) \/
          e_statusCode e = Some 403 \/
          substring_of "consent" (e_message e)) as H403.
  { unfold b403, bconsent.
    rewrite !orb_true_iff, !includes_spec, bool_decide_eq_true. tauto. }
  clearbody b404 b403 bconsent. split; [|split].
  - intros Hnf. apply H404 in Hnf. by rewrite Hnf.
  - intros Hnf Hr. destruct b404; [exfalso; apply Hnf, H404; done|].
    apply H403 in Hr. destruct b403; [by eexists|].
    destruct bconsent; [by eexists|]. destruct Hr; discriminate.
  - intros Hnf Hr. destruct b404; [exfalso; apply Hnf, H404; done|].
    destruct b403; [exfalso; apply Hr, H403; by left|].
    destruct bconsent; [exfalso; apply Hr, H403; by right|]. reflexivity.
Qed.

(** The failure replies of the play endpoint: 400 exactly when the id is
    missing or rejected by [validateID], and otherwise 403, 404 or 500. *)
Theorem play_failure_status (id : option string) (status : nat)
    (error : string) (details : option string) :
  api_play id = Fail status error details ->
  (status = 400 <-> truthy id = false \/ validateID (to_str id) = false) /\
  (status = 400 \/ status = 403 \/ status = 404 \/ status = 500).
Proof.
  intros Hr.
  assert ((truthy id = false \/ validateID (to_str id) = false) /\
          status = 400 \/
          (truthy id = true /\ validateID (to_str id) = true) /\
          (status = 403 \/ status = 404 \/ status = 500)) as Hcases.
  { unfold api_play in Hr.
    destruct (truthy id) eqn:Hid; simpl in Hr;
      [|injection Hr as <- <- <-; left; split; [by left|done]].
    destruct (validateID (to_str id)) eqn:Hvalid; simpl in Hr;
      [|injection Hr as <- <- <-; left; split; [by right|done]].
    right. split; [done|].
    assert (forall e, play_catch e = Fail status error details ->
              status = 403 \/ status = 404 \/ status = 500) as Hcatch.
    { intros e. unfold play_catch.
      repeat case_match; intros [= <- <- <-]; tauto. }
    destruct (getInfo (to_str id)) as [e|info]; [by apply (Hcatch e)|].
    destruct (chooseFormat _) as [e|chosen]; [by apply (Hcatch e)|].
    destruct (match chosen with Some f => Some f | None => _ end) as [f|];
      [destruct (truthy (f_url f)); [discriminate|]|];
      injection Hr as <- <- <-; tauto. }
  destruct Hcases as [[Hbad ->]|[[Hid Hvalid] Hs]].
  - split; [done|by left].
  - split; [|tauto]. split.
    + intros ->. destruct Hs as [?|[?|?]]; discriminate.
    + intros [Hf|Hf]; congruence.
Qed.

End PlayEndpoint.

(** ** What the page shows *)

Section Display.

(** The loading indicator and the error banner are never visible
    together: this holds after page load and every handler keeps it, so it
    holds in every state the script reaches. *)
Theorem banners_never_both (st : State) (ev : Event) :
  banners_exclusive init /\
  (banners_exclusive st -> banners_exclusive (handle ev st)) /\
  (forall evs st', exec init evs = Some st' -> banners_exclusive st').
Proof.
  assert (forall s e, banners_exclusive s -> banners_exclusive (handle e s))
    as Hstep.
  { clear. intros s e. unfold banners_exclusive.
    destruct e; unfold_handle; intuition auto. }
  split; [by left|]. split; [apply Hstep|].
  intros evs st' Hex. rewrite (exec_run _ _ _ Hex).
  clear Hex. assert (banners_exclusive init) as Hinit by (by left).
  revert Hinit. generalize init. induction evs as [|e evs IH]; intros s Hs.
  - exact Hs.
  - simpl. apply IH, Hstep, Hs.
Qed.

(** The next button and the playlist line are visible exactly while a
    playlist is active, and the line always gives the current 1-based
    position and the length: this holds after page load and every handler
    keeps it. *)
Theorem playlist_always_shown (st : State) (ev : Event) :
  playlist_shown init /\
  (playlist_shown st -> playlist_shown (handle ev st)) /\
  (forall evs st', exec init evs = Some st' -> playlist_shown st').
Proof.
  assert (forall s e, playlist_shown s -> playlist_shown (handle e s))
    as Hstep.
  { clear. intros s e. unfold playlist_shown.
    destruct e; unfold_handle; intuition (try congruence; auto);
      simplify_eq; unfold advance; simpl;
      try match goal with
          | Hwrap : bool_decide (length _ <= _) = _ |- _ => rewrite Hwrap
          end;
      reflexivity. }
  split; [by split|]. split; [apply Hstep|].
  intros evs st' Hex. rewrite (exec_run _ _ _ Hex).
  clear Hex. assert (playlist_shown init) as Hinit by (by split).
  revert Hinit. generalize init. induction evs as [|e evs IH]; intros s Hs.
  - exact Hs.
  - simpl. apply IH, Hstep, Hs.
Qed.

(** Whenever a track is staged, its announcement is what the Announcement
    element has been told to play and the Primary element has been told to
    pause: this holds after page load and every handler keeps it. *)
Theorem staged_track_is_announced (st : State) (ev : Event) :
  staged_is_announced init /\
  (staged_is_announced st -> staged_is_announced (handle ev st)) /\
  (forall evs st', exec init evs = Some st' -> staged_is_announced st').
Proof.
  assert (forall s e, staged_is_announced s ->
                      staged_is_announced (handle e s)) as Hstep.
  { clear. intros s e. unfold staged_is_announced.
    destruct e; unfold_handle; intuition (try congruence; auto);
      simplify_eq; by repeat split. }
  split; [done|]. split; [apply Hstep|].
  intros evs st' Hex. rewrite (exec_run _ _ _ Hex).
  clear Hex. assert (staged_is_announced init) as Hinit by done.
  revert Hinit. generalize init. induction evs as [|e evs IH]; intros s Hs.
  - exact Hs.
  - simpl. apply IH, Hstep, Hs.
Qed.

End Display.

(** ** Selecting a search result *)

Section Selecting.

Lemma remove_first_elem (p q : Pending) (l : list Pending) :
  q ∈ remove_first p l -> q ∈ l.
Proof.
  induction l as [|x l IH]; simpl; [done|].
  case_bool_decide.
  - by right.
  - intros Hq. apply elem_of_cons in Hq as [->|Hq]; [by left|].
    right. by apply IH.
Qed.


(** One enabled turn keeps single-track mode, as long as a click hits a
    result marked as a video. *)
Lemma step_single_track (st st' : State) (ev : Event) :
  match ev with ResultClick item => rendered item | _ => True end ->
  single_track_mode st ->
  step st ev = Some st' ->
  single_track_mode st'.
Proof.
  intros Hev (Hpl & Hnext & Hpending). unfold step.
  destruct (enabled st ev) eqn:Hen; [|discriminate]. intros [= <-].
  assert (forall p l id,
            PFetchPlaylist id ∈ (remove_first p (pending st) ++ l)%list ->
            PFetchPlaylist id ∈ l) as Hrest.
  { intros p l id Hin. apply elem_of_app in Hin as [Hin|Hin]; [|done].
    apply remove_first_elem in Hin. by apply Hpending in Hin. }
  assert (forall l id, PFetchPlaylist id ∈ (pending st ++ l)%list ->
                       PFetchPlaylist id ∈ l) as Hrest'.
  { intros l id Hin. apply elem_of_app in Hin as [Hin|Hin]; [|done].
    by apply Hpending in Hin. }
  assert (forall p id, PFetchPlaylist id ∉ remove_first p (pending st))
    as Hrest''.
  { intros p id Hin. apply remove_first_elem in Hin.
    by apply Hpending in Hin. }
  destruct ev as [item| |playlistId r|videoId ttl r| | | | | |
                 |name message| |err].
  - unfold handle, handleResultClick.
    destruct item as [ds|]; [|by repeat split].
    destruct (truthy (ds_id ds)); [|by repeat split].
    simpl in Hev. rewrite Hev.
    rewrite bool_decide_eq_false_2 by discriminate.
    unfold_cmd; simpl. repeat split; try done.
    intros id Hin. apply Hrest' in Hin. absurd_elem Hin.
  - unfold handle, playNextTrackInPlaylist. rewrite Hpl. by repeat split.
  - simpl in Hen. apply bool_decide_eq_true in Hen.
    by apply Hpending in Hen.
  - unfold handle, seq, fetchAndPrepareVideo_resume.
    destruct (checked _ _ _ r) as [m|data].
    + unfold_cmd; simpl. rewrite Hpl. simpl. repeat split; try done.
      apply Hrest''.
    + cbv zeta. unfold seq, playTTS.
      rewrite bool_decide_eq_false_2 by discriminate.
      unfold_cmd; simpl. rewrite Hpl. simpl. repeat split; try done.
      intros id Hin. apply Hrest in Hin. absurd_elem Hin.
  - unfold handle, seq, playNextTrackInPlaylist. simpl. rewrite Hpl. simpl.
    repeat split; try done. apply Hrest''.
  - unfold handle, settle. simpl. repeat split; try done. apply Hrest''.
  - unfold handle, seq, onTtsPlayRejected, seq, playMainAudio. simpl.
    destruct (nextAudioInfo st); rewrite ?Hpl; unfold_cmd; simpl;
      repeat split; try done; try apply Hrest''.
    intros id Hin. apply Hrest in Hin. absurd_elem Hin.
  - unfold handle, onTtsEnded, seq, playMainAudio. simpl.
    destruct (nextAudioInfo st); rewrite ?Hpl; unfold_cmd; simpl;
      repeat split; try done.
    intros id Hin. apply Hrest' in Hin. absurd_elem Hin.
  - unfold handle, onTtsError, seq, playMainAudio, showError, seq. simpl.
    destruct (nextAudioInfo st); rewrite ?Hpl; unfold_cmd; simpl;
      repeat split; try done.
    intros id Hin. apply Hrest' in Hin. absurd_elem Hin.
  - unfold handle, seq, onAudioPlayResolved. simpl.
    destruct (nextAudioInfo st); unfold_cmd; simpl;
      repeat split; try done; apply Hrest''.
  - unfold handle, seq, onAudioPlayRejected. case_bool_decide;
      unfold_cmd; simpl; repeat split; try done; apply Hrest''.
  - unfold handle, onAudioEnded. rewrite Hpl. by repeat split.
  - unfold handle, onAudioError, seq, showError, seq. simpl. rewrite Hpl.
    by repeat split.
Qed.

(** Playlist mode cannot be entered from the result list. From page load,
    as long as every click hits an element marked as a video, which is how
    [displayResults] marks every element it builds, no playlist is ever
    requested or active and the next button stays hidden. *)
Theorem playlist_mode_unreachable (evs : list Event) (st : State) :
  clicks_rendered evs ->
  exec init evs = Some st ->
  single_track_mode st.
Proof.
  assert (single_track_mode init) as Hinit.
  { repeat split. intros id Hin. by apply elem_of_nil in Hin. }
  revert Hinit. generalize init. unfold clicks_rendered.
  induction evs as [|ev evs IH]; intros s Hs Hclicks; simpl.
  - by intros [= <-].
  - apply Forall_cons in Hclicks as [Hev Hclicks].
    destruct (step s ev) as [s'|] eqn:Hstep; [|discriminate].
    apply IH; [|done]. by apply (step_single_track s s' ev).
Qed.

End Selecting.

(** ** The search box *)

Section Searching.

Lemma trim_start_spec (s : string) :
  exists pre,
    s = pre ++ trim_start s /\ blank pre /\
    match trim_start s with
    | EmptyString => True
    | String c _ => is_space c = false
    end.
Proof.
  induction s as [|c s IH]; simpl.
  - by exists "".
  - destruct (is_space c) eqn:Hc.
    + destruct IH as (pre & Hs & Hpre & Hhead).
      exists (String c pre). rewrite append_cons, <- Hs.
      split; [done|]. split; [|done]. unfold blank. simpl. by rewrite Hc.
    + exists "". by rewrite Hc.
Qed.

Lemma trim_end_spec (s : string) :
  exists post,
    s = trim_end s ++ post /\ blank post /\
    forall t c, trim_end s = t ++ String c "" -> is_space c = false.
Proof.
  induction s as [|c s IH]; simpl.
  - exists "". split; [done|]. split; [done|].
    intros [|? ?] c H; discriminate H.
  - destruct IH as (post & Hs & Hpost & Hlast).
    destruct (trim_end s) as [|c' rest] eqn:Hrest.
    + rewrite append_empty in Hs. subst post.
      destruct (is_space c) eqn:Hc.
      * exists (String c s). split; [done|]. split.
        -- unfold blank. simpl. by rewrite Hc.
        -- intros [|? ?] c0 H; discriminate H.
      * exists s. split; [done|]. split; [done|].
        intros [|a [|? ?]] c0 H; rewrite ?append_cons in H;
          try discriminate H.
        rewrite append_empty in H. congruence.
    + exists post. split; [by rewrite append_cons, <- Hs|].
      split; [done|].
      intros [|a t] c0 H.
      * rewrite append_empty in H. discriminate H.
      * rewrite append_cons in H. injection H as -> H.
        by apply (Hlast t c0).
Qed.

Lemma trim_end_head (s : string) :
  match s with
  | EmptyString => True
  | String c _ => is_space c = false
  end ->
  match trim_end s with
  | EmptyString => s = ""
  | String c _ => is_space c = false
  end.
Proof.
  destruct s as [|c s]; [done|]. simpl. intros Hc.
  destruct (trim_end s); by rewrite ?Hc.
Qed.

Lemma blank_app (s t : string) : blank s -> blank t -> blank (s ++ t).
Proof.
  unfold blank. induction s as [|c s IH]; [done|].
  rewrite append_cons. simpl. rewrite !andb_true_iff.
  intros [Hc Hs] Ht. split; [done|by apply IH].
Qed.

Lemma blank_head (c : Ascii.ascii) (s : string) :
  blank (String c s) -> is_space c = true.
Proof. unfold blank. simpl. rewrite andb_true_iff. by intros [? _]. Qed.

(** [trim] removes the white space at both ends and nothing else: the
    input is a blank prefix, the trimmed text and a blank suffix, and the
    trimmed text neither begins nor ends with white space. It is empty
    exactly for a blank input. *)
Lemma trim_spec (s : string) :
  (exists pre post,
     s = pre ++ trim s ++ post /\ blank pre /\ blank post) /\
  match trim s with
  | EmptyString => True
  | String c _ => is_space c = false
  end /\
  (forall t c, trim s = t ++ String c "" -> is_space c = false) /\
  (trim s = "" <-> blank s).
Proof.
  unfold trim.
  destruct (trim_start_spec s) as (pre & Hs & Hpre & Hhead).
  destruct (trim_end_spec (trim_start s)) as (post & Hm & Hpost & Hlast).
  pose proof (trim_end_head _ Hhead) as Hhead'.
  split; [|split; [|split]].
  - exists pre, post. by rewrite <- Hm.
  - by destruct (trim_end (trim_start s)).
  - exact Hlast.
  - split.
    + intros Hempty. rewrite Hempty in Hhead'.
      rewrite Hs, Hhead'. by apply blank_app.
    + intros Hblank. destruct (trim_end (trim_start s)) as [|c m] eqn:Hmid;
        [done|exfalso].
      rewrite Hs, Hm in Hblank.
      assert (forall a b, blank (a ++ b) -> blank b) as Hsuffix.
      { clear. intros a b. induction a as [|x a IH]; [done|].
        rewrite append_cons. unfold blank. simpl. rewrite andb_true_iff.
        intros [_ H]. by apply IH. }
      apply Hsuffix in Hblank. rewrite append_cons in Hblank.
      apply blank_head in Hblank. congruence.
Qed.

(** Submitting the search box. A blank input only shows "Please enter a
    search term.": nothing is sent and the button and the list are left
    alone. Any other input sends one search for the input without the
    white space around it, disables the button, empties the list and shows
    "Searching..." with the error banner hidden. Playback is not touched in
    either case. *)
Theorem search_submission (p : Page) :
  let p' := performSearch p in
  (blank (searchInput p) ->
   searches p' = searches p /\ searchDisabled p' = searchDisabled p /\
   results p' = results p /\
   errorHidden (dom (core p')) = false /\
   errorText (dom (core p')) = "Please enter a search term.") /\
  (~ blank (searchInput p) ->
   searches p' = (searches p ++ [trim (searchInput p)])%list /\
   trim (searchInput p) <> "" /\
   searchDisabled p' = true /\
   results p' = mkResults "" [] /\
   loadingHidden (dom (core p')) = false /\
   loadingText (dom (core p')) = "Searching..." /\
   errorHidden (dom (core p')) = true) /\
  currentPlaylist (core p') = currentPlaylist (core p) /\
  nextAudioInfo (core p') = nextAudioInfo (core p) /\
  audioPlayer (core p') = audioPlayer (core p) /\
  ttsPlayer (core p') = ttsPlayer (core p) /\
  pending (core p') = pending (core p) /\
  log (core p') = log (core p).
Proof.
  simpl. unfold performSearch.
  destruct (trim_spec (searchInput p)) as (_ & _ & _ & Hblank).
  case_bool_decide as Hq.
  - split; [|split]; [by repeat split|intros Hnb; by apply Hblank in Hq|].
    by repeat split.
  - split; [|split]; [intros Hb; by apply Hblank in Hb| |];
      by repeat split.
Qed.


End Searching.

(** ** The result list *)

Section ResultList.

Lemma filter_all {A : Type} (P : A -> bool) (l : list A) :
  (forall x, x ∈ l -> P x = true) -> List.filter P l = l.
Proof.
  induction l as [|a l IH]; intros Hall; simpl; [done|].
  rewrite (Hall a) by left. f_equal. apply IH. intros x Hx.
  apply Hall. by right.
Qed.

Lemma filter_none {A : Type} (P : A -> bool) (l : list A) :
  (forall x, x ∈ l -> P x = false) -> List.filter P l = [].
Proof.
  induction l as [|a l IH]; intros Hall; simpl; [done|].
  rewrite (Hall a) by left. apply IH. intros x Hx. apply Hall. by right.
Qed.

(** What [displayResults] puts in the list. For [null] or an empty array,
    the notice "No results found." and no element. Otherwise no notice and
    one element per entry that has an id and a title, in order, each marked
    as a video and carrying that id and title; entries without one of them
    are skipped, so an array of such entries only leaves the list blank. *)
Theorem result_list (data : option (list SearchResult)) :
  (data = None \/ data = Some [] ->
   displayResults data = mkResults (notice "No results found.") []) /\
  (forall l, data = Some l -> l <> [] ->
     res_html (displayResults data) = "" /\
     res_items (displayResults data)
     = map result_item (List.filter entry_complete l) /\
     length (res_items (displayResults data)) <= length l /\
     ((forall entry, entry ∈ l ->
         truthy (sr_id entry) = true /\ truthy (sr_title entry) = true) ->
      res_items (displayResults data) = map result_item l) /\
     ((forall entry, entry ∈ l ->
         truthy (sr_id entry) = false \/ truthy (sr_title entry) = false) ->
      res_items (displayResults data) = [])) /\
  (forall item, item ∈ res_items (displayResults data) ->
     ds_type (ri_dataset item) = Some "video" /\
     truthy (ds_id (ri_dataset item)) = true /\
     truthy (ds_title (ri_dataset item)) = true /\
     ri_title item = ds_title (ri_dataset item) /\
     exists l entry, data = Some l /\ entry ∈ l /\ item = result_item entry).
Proof.
  split; [|split].
  - by intros [->| ->].
  - intros l -> Hne. destruct l as [|e l]; [done|].
    cbn [displayResults res_html res_items].
    split; [done|]. split; [reflexivity|]. split; [|split].
    + rewrite length_map. apply List.filter_length_le.
    + intros Hall. rewrite filter_all; [done|].
      intros x Hx. destruct (Hall x Hx) as [-> ->]. done.
    + intros Hnone. rewrite filter_none; [done|].
      intros x Hx. destruct (Hnone x Hx) as [-> | ->];
        [done|apply andb_false_r].
  - intros item Hin. destruct data as [[|e l]|];
      try (by apply elem_of_nil in Hin).
    cbn [displayResults res_items] in Hin.
    apply list_elem_of_In, in_map_iff in Hin as (entry & <- & Hentry).
    apply filter_In in Hentry as [Hentry Hok].
    apply andb_true_iff in Hok as [Hid Htitle].
    repeat split; try done.
    exists (e :: l), entry. split; [done|]. split; [|done].
    by apply list_elem_of_In.
Qed.

Lemma result_list_complete (l : list SearchResult) :
  l <> [] ->
  (forall entry, entry ∈ l ->
     truthy (sr_id entry) = true /\ truthy (sr_title entry) = true) ->
  displayResults (Some l) = mkResults "" (map result_item l).
Proof.
  intros Hne Hall. destruct l as [|e l]; [done|].
  cbn [displayResults]. rewrite filter_all; [done|].
  intros x Hx. destruct (Hall x Hx) as [-> ->]. done.
Qed.

End ResultList.

(** ** From the endpoints to the page *)

Section RoundTrips.

Lemma search_reply_complete (search : string -> Outcome (list RawVideo))
    (q : option string) (items : list SearchItem) (i : SearchItem) :
  api_search search q = Ok items -> i ∈ items ->
  truthy (si_id i) = true /\ truthy (si_title i) = true.
Proof.
  unfold api_search. destruct (negb (truthy q)); [discriminate|].
  destruct (search _) as [m|raws]; [discriminate|].
  intros [= <-] Hin. apply list_elem_of_filter in Hin as [Hok _].
  apply Is_true_true, andb_true_iff in Hok. exact Hok.
Qed.

Lemma playlist_reply_complete
    (getPlaylist : string -> Outcome (option RawPlaylist))
    (id : option string) (body : PlaylistBody) :
  api_playlist getPlaylist id = Ok body ->
  truthy (pb_title body) = true /\
  forall v, v ∈ pb_videos body -> truthy (pi_id v) = true.
Proof.
  unfold api_playlist.
  destruct (negb (truthy id) || negb (is_playlist_id (to_str id)));
    [discriminate|].
  destruct (getPlaylist _) as [m|[[ptitle [[|v vs]|]]|]]; try discriminate.
  { by destruct (includes "not found" m || includes "Invalid Playlist ID" m). }
  intros [= <-]. split.
  - simpl. unfold js_or. by destruct (truthy ptitle) eqn:Ht.
  - intros x Hin. cbn [pb_videos] in Hin.
    apply list_elem_of_filter in Hin as [Hok _].
    apply Is_true_true, andb_true_iff in Hok. apply Hok.
Qed.

Lemma play_reply_url `{Ytdl} (id : option string) (body : PlayBody) :
  api_play id = Ok body -> truthy (play_audioUrl body) = true.
Proof.
  unfold api_play.
  destruct (negb (truthy id) || negb (validateID (to_str id)));
    [discriminate|].
  destruct (getInfo (to_str id)) as [e|info].
  { unfold play_catch. repeat case_match; discriminate. }
  destruct (chooseFormat _) as [e|chosen].
  { unfold play_catch. repeat case_match; discriminate. }
  destruct (match chosen with Some f => Some f | None => _ end) as [f|];
    [|discriminate].
  destruct (truthy (f_url f)) eqn:Hurl; [|discriminate].
  by intros [= <-].
Qed.

Lemma search_failure_shape (search : string -> Outcome (list RawVideo))
    (q : option string) (status : nat) (error : string)
    (details : option string) :
  api_search search q = Fail status error details ->
  status_ok status = false /\ truthy (Some error) = true /\
  (details <> None -> status = 500).
Proof.
  unfold api_search. destruct (negb (truthy q)).
  - intros [= <- <- <-]. by repeat split.
  - destruct (search _); intros [= <- <- <-]. by repeat split.
Qed.

Lemma playlist_failure_shape
    (getPlaylist : string -> Outcome (option RawPlaylist))
    (id : option string) (status : nat) (error : string)
    (details : option string) :
  api_playlist getPlaylist id = Fail status error details ->
  status_ok status = false /\ truthy (Some error) = true /\
  (details <> None -> status = 500).
Proof.
  unfold api_playlist.
  destruct (negb (truthy id) || negb (is_playlist_id (to_str id))).
  - intros [= <- <- <-]. by repeat split.
  - destruct (getPlaylist _) as [m|[[ptitle [[|v vs]|]]|]];
      try (intros [= <- <- <-]; by repeat split); try discriminate.
    destruct (includes "not found" m || includes "Invalid Playlist ID" m);
      intros [= <- <- <-]; by repeat split.
Qed.

Lemma play_failure_shape `{Ytdl} (id : option string) (status : nat)
    (error : string) (details : option string) :
  api_play id = Fail status error details ->
  status_ok status = false /\ truthy (Some error) = true /\
  (details <> None -> status = 500).
Proof.
  assert (forall e, play_catch e = Fail status error details ->
            status_ok status = false /\ truthy (Some error) = true /\
            (details <> None -> status = 500)) as Hcatch.
  { intros e. unfold play_catch.
    repeat case_match; intros [= <- <- <-]; by repeat split. }
  unfold api_play.
  destruct (negb (truthy id) || negb (validateID (to_str id)));
    [intros [= <- <- <-]; by repeat split|].
  destruct (getInfo (to_str id)) as [e|info]; [apply Hcatch|].
  destruct (chooseFormat _) as [e|chosen]; [apply Hcatch|].
  destruct (match chosen with Some f => Some f | None => _ end) as [f|];
    [destruct (truthy (f_url f)); [discriminate|]|];
    intros [= <- <- <-]; by repeat split.
Qed.

(** The library's own message is passed on to the client only in a 500
    reply: no 4xx reply of the four endpoints carries details. *)
Theorem details_only_with_500 `{Ytdl} {Stream : Type}
    (search : string -> Outcome (list RawVideo))
    (getPlaylist : string -> Outcome (option RawPlaylist))
    (gtts : string -> string -> Outcome Stream)
    (arg : option string) (status : nat) (error message : string) :
  (api_search search arg = Fail status error (Some message) ->
   status = 500) /\
  (api_playlist getPlaylist arg = Fail status error (Some message) ->
   status = 500) /\
  (api_play arg = Fail status error (Some message) -> status = 500) /\
  (api_tts gtts arg = Fail status error (Some message) -> status = 500).
Proof.
  split; [|split; [|split]].
  - intros Hr. by apply search_failure_shape in Hr as (_ & _ & ->).
  - intros Hr. by apply playlist_failure_shape in Hr as (_ & _ & ->).
  - intros Hr. by apply play_failure_shape in Hr as (_ & _ & ->).
  - unfold api_tts. repeat case_match; intros [= <- <- <-]; done.
Qed.

(** A search reply on the page. Every entry of a 200 reply becomes an
    element of the list (none is skipped, the handler having dropped the
    incomplete ones), an empty reply gives the notice "No results found.",
    and a failure reply gives "Search failed: " followed by the reply's
    error and the notice "Search failed.". *)
Theorem search_round_trip (search : string -> Outcome (list RawVideo))
    (q : option string) (query : string) (p : Page) :
  let p' := performSearch_resume query (search_response (api_search search q)) p
  in
  match api_search search q with
  | Ok items =>
      (items = [] ->
       results p' = mkResults (notice "No results found.") []) /\
      (items <> [] ->
       results p'
       = mkResults "" (map (fun i => result_item (received i)) items)) /\
      errorHidden (dom (core p')) = errorHidden (dom (core p))
  | Fail status error _ =>
      errorHidden (dom (core p')) = false /\
      errorText (dom (core p')) = "Search failed: " ++ error /\
      results p' = mkResults (notice "Search failed.") []
  end.
Proof.
  simpl. destruct (api_search search q) as [items|status error details] eqn:Hr.
  - unfold performSearch_resume, search_response. simpl.
    split; [by intros ->|]. split; [|done].
    intros Hne.
    assert (forall entry, entry ∈ map received items ->
              truthy (sr_id entry) = true /\ truthy (sr_title entry) = true)
      as Hall.
    { intros entry Hin.
      apply list_elem_of_In, in_map_iff in Hin as (i & <- & Hi).
      apply list_elem_of_In in Hi.
      by apply (search_reply_complete search q items i). }
    etrans; [apply (result_list_complete (map received items))|].
    + by destruct items.
    + exact Hall.
    + by rewrite map_map.
  - apply search_failure_shape in Hr as (Hok & Herr & _).
    unfold performSearch_resume, search_response. rewrite Hok. simpl.
    unfold js_or. rewrite Herr. by repeat split.
Qed.

Lemma status_ok_200 : status_ok 200 = true.
Proof. apply bool_decide_eq_true. lia. Qed.

(** A playlist reply in the script. A 200 reply with at least one video
    starts a playlist at index 0 with the reply's title and videos, every
    video with an id, and requests the first one; a 200 reply without
    videos and a failure reply leave no playlist and show
    "Failed to load playlist: " followed by the reason. *)
Theorem playlist_round_trip
    (getPlaylist : string -> Outcome (option RawPlaylist))
    (id playlistId : option string) (st : State) :
  let st' :=
    handle (PlaylistResponse playlistId
              (playlist_response (api_playlist getPlaylist id))) st in
  match api_playlist getPlaylist id with
  | Ok body =>
      (pb_videos body = [] ->
       currentPlaylist st' = None /\
       errorHidden (dom st') = false /\
       errorText (dom st')
       = "Failed to load playlist: Playlist is empty or contains no valid videos.")
      /\
      (pb_videos body <> [] ->
       exists pl first,
         currentPlaylist st' = Some pl /\
         playlist_ok pl /\ all_ids pl /\ currentIndex pl = 0 /\
         pl_title pl = pb_title body /\ truthy (pl_title pl) = true /\
         map v_id (videos pl) = map pi_id (pb_videos body) /\
         videos pl !! 0 = Some first /\
         log st' = (log st ++ [ActFetch (ApiPlay (v_id first))])%list)
  | Fail status error _ =>
      currentPlaylist st' = None /\
      errorHidden (dom st') = false /\
      errorText (dom st') = "Failed to load playlist: " ++ error
  end.
Proof.
  simpl.
  destruct (api_playlist getPlaylist id) as [body|status error details] eqn:Hr.
  - destruct (playlist_reply_complete _ _ _ Hr) as (Htitle & Hids).
    unfold playlist_response. rewrite status_ok_200.
    unfold seq, fetchPlaylist_resume, checked. cbn [pd_videos pd_title].
    destruct (pb_videos body) as [|v vs] eqn:Hvs; cbn [map].
    + split; [|done]. intros _. by repeat split.
    + split; [done|]. intros _.
      eexists _, (mkVideo (pi_id v) (pi_title v)).
      split; [reflexivity|]. split; [split; simpl; [done|lia]|].
      split.
      * unfold all_ids. cbn [videos].
        change (mkVideo (pi_id v) (pi_title v)
                :: map (fun v => mkVideo (pi_id v) (pi_title v)) vs)
          with (map (fun v => mkVideo (pi_id v) (pi_title v)) (v :: vs)).
        apply Forall_forall. intros x Hx.
        apply list_elem_of_In, in_map_iff in Hx as (y & <- & Hy).
        apply list_elem_of_In in Hy. by apply Hids.
      * repeat split; try done.
        simpl. f_equal. by rewrite map_map.
  - apply playlist_failure_shape in Hr as (Hok & Herr & _).
    unfold playlist_response. rewrite Hok.
    unfold seq, fetchPlaylist_resume, checked. simpl.
    unfold js_or. rewrite Herr. by repeat split.
Qed.

(** A play reply in the script. A 200 reply stages the reply's stream URL,
    which is a non-empty string, under the reply's title (the clicked title
    if that is missing), and the Primary element is pointed at exactly that
    URL when the announcement ends. A failure reply stages nothing, shows
    "Failed to load track: " followed by the reply's error, and issues no
    command. *)
Theorem play_round_trip `{Ytdl} (id videoId title : option string)
    (st : State) :
  let st' := handle (PlayResponse videoId title (play_response (api_play id))) st
  in
  match api_play id with
  | Ok body =>
      nextAudioInfo st'
      = Some (mkAudioInfo (play_audioUrl body) (js_or (play_title body) title))
      /\
      exists url,
        play_audioUrl body = Some url /\ url <> "" /\
        src (audioPlayer (handle TtsEnded st')) = Some (Stream url)
  | Fail status error _ =>
      nextAudioInfo st' = None /\
      errorHidden (dom st') = false /\
      errorText (dom st') = "Failed to load track: " ++ error /\
      log st' = log st
  end.
Proof.
  cbv zeta. destruct (api_play id) as [body|status error details] eqn:Hr.
  - pose proof (play_reply_url _ _ Hr) as Hurl.
    apply truthy_Some in Hurl as (url & Hurl & Hne).
    unfold play_response. rewrite status_ok_200.
    destruct (response_stages st videoId title 200
                (mkPlayData (play_audioUrl body) (play_title body) None))
      as (Hstaged & _).
    split; [exact Hstaged|]. exists url. split; [done|]. split; [done|].
    destruct (ended_plays_staged _ _ Hstaged) as (Haudio & _).
    rewrite Haudio. unfold stream_of, staged_by. simpl. by rewrite Hurl.
  - apply play_failure_shape in Hr as (Hok & Herr & _).
    unfold play_response. rewrite Hok.
    unfold handle, seq, fetchAndPrepareVideo_resume, checked. simpl.
    unfold js_or. rewrite Herr. unfold_cmd. simpl.
    destruct (currentPlaylist st); by repeat split.
Qed.

Lemma length_append (s t : string) :
  String.length (s ++ t) = String.length s + String.length t.
Proof.
  induction s as [|c s IH]; [done|]. rewrite append_cons. simpl.
  by rewrite IH.
Qed.

(** The announcement the script requests for a staged track is never
    refused as empty by the speech endpoint, and it is refused as too long
    exactly when the staged title has more than 184 characters. *)
Theorem announcement_length_limit {Stream : Type}
    (gtts : string -> string -> Outcome Stream) (info : AudioInfo) :
  let text := "Changing now to " ++ to_str (title info) in
  announcement info = ApiTts text /\
  api_tts gtts (Some text) <> Fail 400 text_required None /\
  (api_tts gtts (Some text) = Fail 400 text_too_long None <->
   184 < String.length (to_str (title info))).
Proof.
  simpl. split; [done|]. unfold api_tts.
  assert (truthy (Some ("Changing now to " ++ to_str (title info))) = true)
    as -> by (apply truthy_spec; eexists; split; [done|discriminate]).
  cbn [negb to_str]. rewrite length_append.
  change (String.length "Changing now to ") with 16.
  case_bool_decide as Hlen.
  - split; [discriminate|]. split; [intros _; lia|done].
  - split; [destruct (gtts _ _); discriminate|].
    split; [destruct (gtts _ _); discriminate|lia].
Qed.

End RoundTrips.

(** ** After the hand-over *)

Section AfterHandover.

(** The staged track is consumed once. Of two terminal signals of the
    Announcement channel (an ['error'] event and the rejection of [play()]
    usually come together) the first hands the staged track to the Primary
    channel and the second issues no command, so the track is not
    restarted; without a playlist, the second signal hides the player. *)
Theorem second_signal_starts_nothing (st : State) (info : AudioInfo)
    (ev1 ev2 : Event) :
  nextAudioInfo st = Some info ->
  announcement_signal ev1 ->
  announcement_signal ev2 ->
  let st1 := handle ev1 st in
  let st2 := handle ev2 st1 in
  log st1
  = (log st ++ [ActSetSrc Primary (stream_of info); ActPlay Primary])%list /\
  log st2 = log st1 /\
  audioPlayer st2 = mkChannel (Some (stream_of info)) false /\
  nextAudioInfo st2 = None /\
  (currentPlaylist st = None -> playerHidden (dom st2) = true) /\
  (currentPlaylist st <> None ->
   playerHidden (dom st2) = playerHidden (dom st)).
Proof.
  intros Hinfo [-> |[-> | ->]] [-> |[-> | ->]]; cbv zeta;
    unfold handle, onTtsEnded, onTtsError, onTtsPlayRejected, seq,
      playMainAudio, showError, seq;
    simpl; rewrite Hinfo; unfold_cmd; simpl;
    destruct (currentPlaylist st) eqn:Hpl; simpl;
    rewrite <- ?app_assoc; repeat split; try done; congruence.
Qed.

(** When the [play()] promise of the Primary element resolves right after
    the hand-over, nothing is staged any more and the callback's read of
    [nextAudioInfo.title] throws: instead of revealing the player and
    clearing the banners, the script shows "Playback error: ..." while the
    track keeps playing, and the visibility of the player is not
    changed. *)
Theorem playback_start_shows_error (st : State) (info : AudioInfo)
    (ev : Event) :
  nextAudioInfo st = Some info ->
  announcement_signal ev ->
  let st1 := handle ev st in
  let st2 := handle AudioPlayResolved st1 in
  enabled st1 AudioPlayResolved = true /\
  errorHidden (dom st2) = false /\
  errorText (dom st2) = "Playback error: " ++ null_property_message "title" /\
  playerHidden (dom st2) = playerHidden (dom st) /\
  audioPlayer st2 = mkChannel (Some (stream_of info)) false /\
  log st2 = log st1.
Proof.
  intros Hinfo [-> |[-> | ->]]; cbv zeta;
    unfold handle, onTtsEnded, onTtsError, onTtsPlayRejected, seq,
      playMainAudio, showError, seq;
    simpl; rewrite Hinfo; unfold_cmd; simpl;
    (split; [apply bool_decide_eq_true, elem_of_app; right; left|]);
    by repeat split.
Qed.

Lemma signal_without_stage (s : State) (ev : Event) :
  nextAudioInfo s = None ->
  announcement_signal ev ->
  log (handle ev s) = log s /\
  audioPlayer (handle ev s) = audioPlayer s /\
  nextAudioInfo (handle ev s) = None.
Proof.
  intros Hnone [-> |[-> | ->]];
    unfold handle, onTtsEnded, onTtsError, onTtsPlayRejected, seq,
      playMainAudio, showError, seq;
    simpl; rewrite Hnone; destruct (currentPlaylist s); by repeat split.
Qed.

(** A failed resolve response clears whatever is staged, also a track
    staged for another selection: the next terminal signal of the
    Announcement channel then starts nothing. *)
Theorem failed_response_clears_stage (st : State)
    (videoId title : option string) (r : Fetched PlayData)
    (message : string) (ev : Event) :
  resolve_error r = Some message ->
  announcement_signal ev ->
  let st1 := handle (PlayResponse videoId title r) st in
  nextAudioInfo st1 = None /\
  log (handle ev st1) = log st /\
  audioPlayer (handle ev st1) = audioPlayer st /\
  nextAudioInfo (handle ev st1) = None.
Proof.
  unfold resolve_error. intros Herr Hev. cbv zeta.
  set (st1 := handle (PlayResponse videoId title r) st).
  assert (nextAudioInfo st1 = None /\ log st1 = log st /\
          audioPlayer st1 = audioPlayer st) as (Hnone & Hlog & Haudio).
  { subst st1. unfold handle, seq, fetchAndPrepareVideo_resume.
    destruct (checked _ _ _ r) as [m|data]; [|discriminate].
    unfold_cmd; simpl. destruct (currentPlaylist st); by repeat split. }
  destruct (signal_without_stage st1 ev Hnone Hev) as (H1 & H2 & H3).
  split; [done|]. split; [congruence|]. split; [congruence|done].
Qed.

End AfterHandover.

(** ** The properties at work *)

Lemma search_reply_exact_witness :
  exists results,
    found ("lofi" ++ " chill relaxing music") = Returns results /\
    [mkSearchItem (Some "a") (Some "A") None (Some "3:05")]
      `sublist_of` map simplified results.
Proof.
  destruct (search_reply_exact found (Some "lofi")
              [mkSearchItem (Some "a") (Some "A") None (Some "3:05")])
    as (results & Hcall & _ & Hsub & _); [reflexivity|].
  exists results. split; [exact Hcall|exact Hsub].
Defined.

Lemma playlist_reply_exact_witness :
  truthy (pb_title (mkPlaylistBody (Some "Chill")
                      [mkPlaylistItem (Some "a") (Some "A") (Some "3:05")]))
  = true.
Proof.
  destruct (playlist_reply_exact listed (Some "PL1")
              (mkPlaylistBody (Some "Chill")
                 [mkPlaylistItem (Some "a") (Some "A") (Some "3:05")]))
    as (ptitle & raws & _ & _ & Htitle & _); [reflexivity|].
  exact Htitle.
Defined.

Lemma playlist_id_checked_witness :
  api_playlist listed (Some "PL/1") = Fail 400 playlist_id_required None.
Proof.
  refine (proj1 (playlist_id_checked listed (Some "PL/1")) _ listed).
  right. exists (Ascii.ascii_of_nat 47). split; [|reflexivity].
  apply list_elem_of_In. right. right. left. reflexivity.
Defined.

Lemma play_reply_has_url_witness :
  @api_play ytdl_found (Some "abcdefghijk")
  = Ok (mkPlayBody (Some "u160") (Some "Title A") 185) /\
  truthy (Some "u160") = true.
Proof.
  split; [reflexivity|].
  refine (proj1 (@play_reply_has_url ytdl_found (Some "abcdefghijk")
                   (mkPlayBody (Some "u160") (Some "Title A") 185) _)).
  reflexivity.
Defined.

Lemma play_fallback_best_witness :
  exists pre f post,
    sample_formats = (pre ++ f :: post)%list /\
    Some "u160" = f_url f /\
    (forall g, g ∈ pre -> bitrate g < bitrate f) /\
    (forall g, g ∈ post -> bitrate g <= bitrate f).
Proof.
  refine (@play_fallback_best ytdl_found (Some "abcdefghijk")
            (mkVideoInfo sample_formats (Some "Title A") (Some "185"))
            (mkPlayBody (Some "u160") (Some "Title A") 185) _ _ _);
    reflexivity.
Defined.

Lemma play_catch_classes_witness :
  play_catch unavailable_403
  = Fail 404 "Video is private, unavailable, or not found." None.
Proof.
  refine (proj1 (play_catch_classes unavailable_403) _).
  right. left. exists "Video ", "". reflexivity.
Defined.

Lemma play_failure_status_witness :
  404 = 400 \/ 404 = 403 \/ 404 = 404 \/ 404 = 500.
Proof.
  refine (proj2 (@play_failure_status ytdl_failing (Some "abcdefghijk") 404
                   "Video is private, unavailable, or not found." None _)).
  reflexivity.
Defined.

Lemma banners_never_both_witness :
  banners_exclusive (handle (AudioError unsupported) staged_A).
Proof.
  refine (proj1 (proj2 (banners_never_both staged_A (AudioError unsupported)))
            _).
  left. reflexivity.
Defined.

Lemma playlist_always_shown_witness :
  playlist_shown second_track /\
  playlistInfoText (dom second_track) = "Playlist: Chill (2 / 2)".
Proof.
  split; [|reflexivity].
  refine (proj2 (proj2 (playlist_always_shown init NextClick))
            [ResultClick (Some item_P);
             PlaylistResponse (Some "PL1") listed_P;
             PlayResponse (Some "a") (Some "A") resolved_A;
             TtsEnded; AudioEnded]
            second_track _).
  vm_compute. reflexivity.
Defined.


Lemma playlist_mode_unreachable_witness :
  single_track_mode staged_A.
Proof.
  refine (playlist_mode_unreachable
            [ResultClick (Some item_A);
             PlayResponse (Some "idA") (Some "Song A") resolved_A]
            staged_A _ _).
  - repeat constructor.
  - vm_compute. reflexivity.
Defined.

Lemma search_submission_witness :
  searches (performSearch page_lofi) = ["lofi beats"].
Proof.
  destruct (proj1 (proj2 (search_submission page_lofi))) as (Hsent & _).
  - unfold blank. vm_compute. discriminate.
  - exact Hsent.
Defined.


Lemma result_list_witness :
  displayResults (Some []) = mkResults (notice "No results found.") [] /\
  res_items
    (displayResults
       (Some [mkSearchResult (Some "a") (Some "A") None None;
              mkSearchResult None (Some "B") None None;
              mkSearchResult (Some "c") (Some "C") None None]))
  = [result_item (mkSearchResult (Some "a") (Some "A") None None);
     result_item (mkSearchResult (Some "c") (Some "C") None None)] /\
  res_items
    (displayResults
       (Some [mkSearchResult (Some "a") None None None;
              mkSearchResult None (Some "B") None None]))
  = [].
Proof.
  split; [|split].
  - refine (proj1 (result_list (Some [])) _). right. reflexivity.
  - destruct (proj1 (proj2 (result_list
                (Some [mkSearchResult (Some "a") (Some "A") None None;
                       mkSearchResult None (Some "B") None None;
                       mkSearchResult (Some "c") (Some "C") None None])))
                _ eq_refl) as (_ & Hitems & _); [discriminate|].
    exact Hitems.
  - destruct (proj1 (proj2 (result_list
                (Some [mkSearchResult (Some "a") None None None;
                       mkSearchResult None (Some "B") None None])))
                _ eq_refl) as (_ & _ & _ & _ & Hblank); [discriminate|].
    apply Hblank. intros entry Hin.
    apply elem_of_cons in Hin as [->|Hin]; [right; reflexivity|].
    apply elem_of_cons in Hin as [->|Hin]; [left; reflexivity|].
    apply elem_of_nil in Hin. destruct Hin.
Defined.

Lemma playlist_round_trip_witness :
  exists pl,
    currentPlaylist
      (handle (PlaylistResponse (Some "PL1")
                 (playlist_response (api_playlist listed (Some "PL1"))))
              (handle (ResultClick (Some item_P)) init))
    = Some pl /\
    all_ids pl.
Proof.
  pose proof (playlist_round_trip listed (Some "PL1") (Some "PL1")
                (handle (ResultClick (Some item_P)) init)) as Hrt.
  cbv zeta in Hrt.
  change (api_playlist listed (Some "PL1"))
    with (Ok (mkPlaylistBody (Some "Chill")
                [mkPlaylistItem (Some "a") (Some "A") (Some "3:05")]))
    in Hrt at 2.
  cbv iota beta in Hrt.
  destruct (proj2 Hrt) as (pl & first & Hpl & _ & Hids & _); [discriminate|].
  exists pl. split; [exact Hpl|exact Hids].
Defined.

Lemma announcement_length_limit_witness :
  api_tts gtts_up (Some ("Changing now to " ++ "Title A"))
  <> Fail 400 text_too_long None.
Proof.
  intros Hlong.
  pose proof (proj1 (proj2 (proj2 (announcement_length_limit gtts_up
                 (mkAudioInfo (Some "urlA") (Some "Title A"))))) Hlong)
    as Hlen.
  simpl in Hlen. lia.
Defined.

Lemma details_only_with_500_witness :
  api_search (fun _ => Throws "socket hang up") (Some "lofi")
  = Fail 500 "Failed to search YouTube." (Some "socket hang up") /\
  500 = 500.
Proof.
  split; [reflexivity|].
  refine (proj1 (@details_only_with_500 ytdl_found string
                   (fun _ => Throws "socket hang up") listed gtts_up
                   (Some "lofi") 500 "Failed to search YouTube."
                   "socket hang up") _).
  reflexivity.
Defined.

Lemma second_signal_starts_nothing_witness :
  log (handle TtsPlayRejected (handle TtsError staged_A))
  = log (handle TtsError staged_A) /\
  playerHidden (dom (handle TtsPlayRejected (handle TtsError staged_A)))
  = true.
Proof.
  destruct (second_signal_starts_nothing staged_A
              (mkAudioInfo (Some "urlA") (Some "Title A"))
              TtsError TtsPlayRejected)
    as (_ & Hlog & _ & _ & Hhidden & _).
  - reflexivity.
  - right. left. reflexivity.
  - right. right. reflexivity.
  - split; [exact Hlog|]. apply Hhidden. reflexivity.
Defined.

Lemma playback_start_shows_error_witness :
  errorHidden (dom (handle AudioPlayResolved (handle TtsEnded staged_A)))
  = false.
Proof.
  destruct (playback_start_shows_error staged_A
              (mkAudioInfo (Some "urlA") (Some "Title A")) TtsEnded)
    as (_ & Hshown & _).
  - reflexivity.
  - left. reflexivity.
  - exact Hshown.
Defined.

Lemma failed_response_clears_stage_witness :
  log (handle TtsEnded
         (handle (PlayResponse (Some "idB") (Some "Song B") unresolved)
                 staged_A))
  = log staged_A.
Proof.
  destruct (failed_response_clears_stage staged_A (Some "idB")
              (Some "Song B") unresolved
              "Video is private, unavailable, or not found." TtsEnded)
    as (_ & Hlog & _).
  - reflexivity.
  - left. reflexivity.
  - exact Hlog.
Defined.

Lemma staged_track_is_announced_witness :
  staged_is_announced staged_A /\
  staged_is_announced (handle NextClick staged_A).
Proof.
  assert (staged_is_announced staged_A) as Hstaged.
  { refine (proj2 (proj2 (staged_track_is_announced init NextClick))
              [ResultClick (Some item_A);
               PlayResponse (Some "idA") (Some "Song A") resolved_A]
              staged_A _).
    vm_compute. reflexivity. }
  split; [exact Hstaged|].
  exact (proj1 (proj2 (staged_track_is_announced staged_A NextClick)) Hstaged).
Defined.
